(** * wiki_topic_labels: bootstrap aggregation of ranked Wikipedia suggestions

    A shallow embedding of [wiki_topic_labels/wiki_topic_labels.py] and the
    properties of its six components: the ranked search, the category lookup,
    the bootstrap generator, the aggregator, the category booster and the
    label selection.

    Conventions of the embedding.
    - A Python [str] is a [string]; a Python [int] argument is a [Z].
    - A score is a Python float.  Every score the program builds is a finite
      sum of powers of two with small exponents, which binary floating point
      adds without rounding; scores are embedded as exact rationals [Q] and
      compared with [==].
    - A [dict] (and its subclasses [Counter] and [defaultdict]) is an
      association list in insertion order with one entry per key: assigning
      to a present key keeps its position, assigning to an absent key appends.
    - Exceptions are values of [exn]; a computation that may raise returns an
      [outcome].  The two [lru_cache] stores are explicit state. *)

From Stdlib Require Import List String Ascii ZArith QArith Qpower Lia Bool.
From Stdlib Require Import Permutation Sorted Factorial ArithRing.
Import ListNotations.
Close Scope Q_scope.
Open Scope string_scope.
Open Scope list_scope.

(* ================================================================= *)
(** * Part I: the program *)

(* ----------------------------------------------------------------- *)
(** ** Exceptions and outcomes *)

(** Modelled from the spec: the exception classes of the [wikipedia] package,
    which is not part of the repository.  [PageError] is the spec's NotFound,
    [DisambiguationError] its Ambiguous, and [WikipediaException] its
    ServiceError: the base class of the package's taxonomy, standing for
    itself and for every subclass other than the two above.  [ValueError] is
    Python's own, and [ForeignError] stands for any exception that is not in
    the package's taxonomy. *)
Inductive exn : Set :=
| ValueError
| PageError
| DisambiguationError
| WikipediaException
| ForeignError.

Inductive outcome (A : Type) : Type :=
| Return (a : A)
| Raise (e : exn).

Arguments Return {A} a.
Arguments Raise {A} e.

(** The external collaborator: [wikipedia.search] and the [categories] of
    [wikipedia.page].  Both are deterministic functions of their argument
    that either answer or raise. *)
Record wikipedia : Type := {
  search : string -> outcome (list string);
  page_categories : string -> outcome (list string)
}.

(* ----------------------------------------------------------------- *)
(** ** A state and exception monad *)

Section Monad.
Context {St : Type}.

Definition M (A : Type) : Type := St -> outcome A * St.

Definition ret {A} (a : A) : M A := fun s => (Return a, s).

Definition raise {A} (e : exn) : M A := fun s => (Raise e, s).

Definition bind {A B} (m : M A) (k : A -> M B) : M B :=
  fun s =>
    match m s with
    | (Return a, s') => k a s'
    | (Raise e, s') => (Raise e, s')
    end.

(** [for x in l: acc = body(acc, x)] *)
Fixpoint for_each {A B} (body : B -> A -> M B) (l : list A) (acc : B) : M B :=
  match l with
  | [] => ret acc
  | x :: xs => bind (body acc x) (for_each body xs)
  end.
End Monad.

Arguments M St A : clear implicits.

Declare Scope monad_scope.
Delimit Scope monad_scope with monad.
Notation "x <- m ;; k" := (bind m (fun x => k))
  (at level 61, m at next level, right associativity) : monad_scope.

(* ----------------------------------------------------------------- *)
(** ** Scores *)

Definition score : Set := Q.

Definition Qltb (x y : Q) : bool := negb (Qle_bool y x).

(** [2**(-i)] *)
Definition pow2_neg (i : nat) : score := (2 ^ (- Z.of_nat i))%Q.

(* ----------------------------------------------------------------- *)
(** ** dict, Counter and defaultdict(float) *)

Definition Counter : Set := list (string * score).

(** [c[k]] on a [Counter] or a [defaultdict(float)]: a missing key reads as
    zero. *)
Fixpoint Counter_get (c : Counter) (k : string) : score :=
  match c with
  | [] => 0%Q
  | (k', v) :: c' => if String.eqb k' k then v else Counter_get c' k
  end.

(** [k in c] *)
Fixpoint Counter_contains (c : Counter) (k : string) : bool :=
  match c with
  | [] => false
  | (k', _) :: c' => if String.eqb k' k then true else Counter_contains c' k
  end.

(** [c[k] = v] *)
Fixpoint Counter_set (c : Counter) (k : string) (v : score) : Counter :=
  match c with
  | [] => [(k, v)]
  | (k', v') :: c' =>
      if String.eqb k' k then (k', v) :: c' else (k', v') :: Counter_set c' k v
  end.

(** [list(c)]: the keys in insertion order. *)
Definition Counter_keys (c : Counter) : list string := map fst c.

(** [Counter._keep_positive]: drop the entries whose count is not [> 0]. *)
Definition keep_positive (c : Counter) : Counter :=
  filter (fun kv => Qltb 0 (snd kv)) c.

(** [c += other] is [Counter.__iadd__]:
    [for elem, count in other.items(): self[elem] += count], then
    [_keep_positive]. *)
Definition Counter_iadd (c other : Counter) : Counter :=
  keep_positive
    (fold_left (fun self kv => Counter_set self (fst kv) (Counter_get self (fst kv) + snd kv)%Q)
               other c).

(** [sorted(items, key=itemgetter(1), reverse=True)]: a stable sort, so an
    item goes in front of the first later item whose score is not larger. *)
Fixpoint insert_desc (x : string * score) (l : list (string * score)) : list (string * score) :=
  match l with
  | [] => [x]
  | y :: ys => if Qle_bool (snd y) (snd x) then x :: y :: ys else y :: insert_desc x ys
  end.

Definition sorted_desc (items : list (string * score)) : list (string * score) :=
  fold_right insert_desc [] items.

(** [Counter.most_common(n)]: the whole sorted list for [None]; otherwise
    [heapq.nlargest(n, items, key=itemgetter(1))], which is the first [n]
    items of the same sorted list and is empty for [n <= 0]. *)
Definition most_common (c : Counter) (n : option Z) : list (string * score) :=
  match n with
  | None => sorted_desc c
  | Some n => if (n <=? 0)%Z then [] else firstn (Z.to_nat n) (sorted_desc c)
  end.

(* ----------------------------------------------------------------- *)
(** ** enumerate, str.join and itertools.combinations *)

Fixpoint enumerate_from {A} (i : nat) (l : list A) : list (nat * A) :=
  match l with
  | [] => []
  | x :: xs => (i, x) :: enumerate_from (S i) xs
  end.

Definition enumerate {A} (l : list A) : list (nat * A) := enumerate_from 0 l.

(** [sep.join(l)] *)
Definition join (sep : string) (l : list string) : string := String.concat sep l.

(** The [r]-length subsequences of [pool], in the order [itertools] emits
    them: those that keep the first element come first. *)
Fixpoint subsequences {A} (pool : list A) (r : nat) {struct pool} : list (list A) :=
  match r, pool with
  | O, _ => [[]]
  | S _, [] => []
  | S r', x :: xs => map (cons x) (subsequences xs r') ++ subsequences xs r
  end.

(** [itertools.combinations(pool, r)]: a negative [r] is a [ValueError]. *)
Definition combinations {A} (pool : list A) (r : Z) : outcome (list (list A)) :=
  if (r <? 0)%Z then Raise ValueError else Return (subsequences pool (Z.to_nat r)).

(* ----------------------------------------------------------------- *)
(** ** functools.lru_cache *)

(** [lru_cache()] is [lru_cache(maxsize=128, typed=False)]. *)
Definition maxsize : nat := 128.

(** The store of one decorated function: the cached results, most recently
    used first, and the keys for which the decorated function was actually
    run, latest first. *)
Record lru (V : Type) : Type := {
  entries : list (string * V);
  sent : list string
}.

Arguments entries {V} l.
Arguments sent {V} l.

Definition lru_empty {V} : lru V := {| entries := []; sent := [] |}.

Fixpoint lru_find {V} (key : string) (es : list (string * V)) : option V :=
  match es with
  | [] => None
  | (k, v) :: es' => if String.eqb k key then Some v else lru_find key es'
  end.

Definition lru_drop {V} (key : string) (es : list (string * V)) : list (string * V) :=
  filter (fun kv => negb (String.eqb (fst kv) key)) es.

(** A call of the decorated function.  A hit returns the stored result and
    makes the entry the most recent one.  A miss runs the function; a result
    is stored as the most recent entry, evicting the least recently used one
    when the store is full; an exception is not stored. *)
Definition lru_cache {V} (user_function : string -> outcome V) (key : string) : M (lru V) V :=
  fun c =>
    match lru_find key (entries c) with
    | Some v =>
        (Return v, {| entries := (key, v) :: lru_drop key (entries c); sent := sent c |})
    | None =>
        match user_function key with
        | Return v =>
            (Return v, {| entries := firstn maxsize ((key, v) :: entries c);
                          sent := key :: sent c |})
        | Raise e => (Raise e, {| entries := entries c; sent := key :: sent c |})
        end
    end.

(** A sequence of calls of a decorated function, one per key, whatever each
    call returns or raises: the store they leave behind. *)
Definition lru_calls {V} (user_function : string -> outcome V) (keys : list string)
           (c : lru V) : lru V :=
  fold_left (fun c key => snd (lru_cache user_function key c)) keys c.

(** The number of distinct keys of [keys] other than [key]. *)
Definition distinct_others (key : string) (keys : list string) : nat :=
  List.length (nodup string_dec (remove string_dec key keys)).

(* ----------------------------------------------------------------- *)
(** ** wiki_topic_labels.py *)

Section Program.
Variable W : wikipedia.

(** [Counter({result: 2**(-i) for i, result in enumerate(results)})] *)
Definition rank_results (results : list string) : Counter :=
  fold_left (fun d ir => Counter_set d (snd ir) (pow2_neg (fst ir)))
            (enumerate results) [].

(** The body of [rank_wiki_labels]. *)
Definition rank_wiki_labels_body (query : string) : outcome Counter :=
  match search W query with
  | Return results => Return (rank_results results)
  | Raise e => Raise e
  end.

Definition rank_wiki_labels (query : string) : M (lru Counter) Counter :=
  lru_cache rank_wiki_labels_body query.

(** [except (wikipedia.PageError, wikipedia.DisambiguationError,
    wikipedia.WikipediaException)] *)
Definition caught (e : exn) : bool :=
  match e with
  | PageError | DisambiguationError | WikipediaException => true
  | ValueError | ForeignError => false
  end.

(** The body of [get_wiki_cats]. *)
Definition get_wiki_cats_body (title : string) : outcome (list string) :=
  match page_categories W title with
  | Return categories => Return categories
  | Raise e => if caught e then Return [] else Raise e
  end.

Definition get_wiki_cats (title : string) : M (lru (list string)) (list string) :=
  lru_cache get_wiki_cats_body title.

(** The queries [bootstrap_topic] yields, in order; the generator raises
    before its first query or not at all. *)
Definition bootstrap_topic (topic contextual_anchors : list string) (n_terms : Z)
  : outcome (list string) :=
  let n_terms :=
    if (Z.of_nat (List.length topic) <? n_terms)%Z then Z.of_nat (List.length topic) else n_terms in
  match combinations topic n_terms with
  | Return combs => Return (map (fun topic_ => join " " (topic_ ++ contextual_anchors)) combs)
  | Raise e => Raise e
  end.

Definition bootstrap_labeller (topic contextual_anchors : list string) (n_terms : Z)
  : M (lru Counter) Counter :=
  match bootstrap_topic topic contextual_anchors n_terms with
  | Return queries =>
      for_each (fun counts topic_ =>
                  (ranked_labels <- rank_wiki_labels topic_ ;;
                   ret (Counter_iadd counts ranked_labels))%monad)
               queries []
  | Raise e => raise e
  end.

(** The inner loop of [enrich_from_categories] over the categories of one
    term. *)
Definition cumulate (counts : Counter) (term : string) (score_ : score)
           (cats : list string) (cumulator_terms : Counter) : Counter :=
  fold_left (fun cum cat =>
               if String.eqb cat term then cum
               else if negb (Counter_contains counts cat) then cum
               else Counter_set cum cat (Counter_get cum cat + score_)%Q)
            cats cumulator_terms.

(** The second loop of [enrich_from_categories]. *)
Definition boost (category_boost : score) (cumulator_terms counts : Counter) : Counter :=
  fold_left (fun counts tc =>
               Counter_set counts (fst tc)
                           (Counter_get counts (fst tc) + category_boost * snd tc)%Q)
            (most_common cumulator_terms None) counts.

Definition enrich_from_categories (counts : Counter) (min_score category_boost : score)
  : M (lru (list string)) Counter :=
  (cumulator_terms <-
     for_each (fun cum ts =>
                 if Qltb (snd ts) min_score then ret cum
                 else (cats <- get_wiki_cats (fst ts) ;;
                       ret (cumulate counts (fst ts) (snd ts) cats cum)))
              counts [] ;;
   ret (boost category_boost cumulator_terms counts))%monad.

(** [[label for label, _ in counts.most_common(topn)]] *)
Definition select (counts : Counter) (topn : option Z) : list string :=
  map fst (most_common counts topn).

(** The process: the stores of the two decorated functions. *)
Record process : Type := {
  rank_cache : lru Counter;
  cats_cache : lru (list string)
}.

Definition with_rank_cache {A} (m : M (lru Counter) A) : M process A :=
  fun p =>
    let (r, c) := m (rank_cache p) in
    (r, {| rank_cache := c; cats_cache := cats_cache p |}).

Definition with_cats_cache {A} (m : M (lru (list string)) A) : M process A :=
  fun p =>
    let (r, c) := m (cats_cache p) in
    (r, {| rank_cache := rank_cache p; cats_cache := c |}).

Definition default_min_score : score := (1 # 10)%Q.
Definition default_category_boost : score := 2%Q.

Definition suggest_labels (topic contextual_anchors : list string) (topn : option Z)
           (bootstrap_size : Z) (boost_with_categories : bool) : M process (list string) :=
  (counts <- with_rank_cache (bootstrap_labeller topic contextual_anchors bootstrap_size) ;;
   counts <- (if boost_with_categories
              then with_cats_cache
                     (enrich_from_categories counts default_min_score default_category_boost)
              else ret counts) ;;
   ret (select counts topn))%monad.
End Program.

(** The position of the last occurrence of [t] in [r], counted from zero. *)
Fixpoint last_index (t : string) (r : list string) : option nat :=
  match r with
  | [] => None
  | x :: xs =>
      match last_index t xs with
      | Some j => Some (S j)
      | None => if String.eqb x t then Some 0 else None
      end
  end.

(** A store agrees with the function it decorates: what it holds for a key
    is what the function returns for that key. *)
Definition lru_consistent {V} (f : string -> outcome V) (c : lru V) : Prop :=
  forall k v, lru_find k (entries c) = Some v -> f k = Return v.

(** The entry of [k] is in the store, holds [v], and every entry in front
    of it belongs to a key of [others]. *)
Definition recent {V} (k : string) (v : V) (others : list string) (c : lru V) : Prop :=
  exists pre post,
    entries c = pre ++ (k, v) :: post /\
    NoDup (map fst pre) /\
    incl (map fst pre) others /\
    ~ In k (map fst pre).

(** The store holds at most [maxsize] entries, one per key. *)
Definition lru_bounded {V} (c : lru V) : Prop :=
  List.length (entries c) <= maxsize /\ NoDup (map fst (entries c)).

(** [seen] extended by the elements of [l] not yet in it, each at its first
    occurrence and in that order. *)
Definition first_seen_from (seen l : list string) : list string :=
  fold_left (fun acc x => if existsb (String.eqb x) acc then acc else acc ++ [x]) l seen.

(** The distinct elements of [l] in the order of their first occurrence. *)
Definition first_seen (l : list string) : list string := first_seen_from [] l.

(** The titles the search answers for a query, none when it raises. *)
Definition results_of (W : wikipedia) (query : string) : list string :=
  match search W query with
  | Return results => results
  | Raise _ => []
  end.

(** Both stores of the process agree with the collaborator [W]. *)
Definition process_consistent (W : wikipedia) (p : process) : Prop :=
  lru_consistent (rank_wiki_labels_body W) (rank_cache p) /\
  lru_consistent (get_wiki_cats_body W) (cats_cache p).

(** The categories the lookup yields for a title, none when it raises. *)
Definition categories_of (W : wikipedia) (title : string) : list string :=
  match get_wiki_cats_body W title with
  | Return cats => cats
  | Raise _ => []
  end.

(** What the entry [ts] of the score map [counts] adds to the side
    accumulator for the label [L]: nothing when its score is below
    [min_score], when it is [L] itself or when [L] is no key of [counts];
    otherwise its score, once per occurrence of [L] among its categories. *)
Definition category_mass (W : wikipedia) (counts : Counter) (min_score : score)
           (L : string) (ts : string * score) : Q :=
  if Qltb (snd ts) min_score then 0%Q
  else if String.eqb L (fst ts) then 0%Q
  else if Counter_contains counts L
       then (snd ts * inject_Z (Z.of_nat (count_occ string_dec (categories_of W (fst ts)) L)))%Q
       else 0%Q.

(** The strictly increasing lists of [r] positions taken from
    [start, start + n), those that contain [start] first. *)
Fixpoint position_lists (start n r : nat) {struct n} : list (list nat) :=
  match r, n with
  | O, _ => [[]]
  | S _, O => []
  | S r', S n' =>
      map (cons start) (position_lists (S start) n' r') ++ position_lists (S start) n' r
  end.

(** The lexicographic order on lists of positions. *)
Inductive lex_lt : list nat -> list nat -> Prop :=
| lex_lt_nil y ys : lex_lt [] (y :: ys)
| lex_lt_head x xs y ys : x < y -> lex_lt (x :: xs) (y :: ys)
| lex_lt_tail x xs ys : lex_lt xs ys -> lex_lt (x :: xs) (x :: ys).

(** The query built from the terms of [topic] at the positions [ps]. *)
Definition query_at (topic contextual_anchors : list string) (ps : list nat) : string :=
  join " " (map (fun p => nth p topic "") ps ++ contextual_anchors).

(** Every count of the counter is positive. *)
Definition all_positive (c : Counter) : Prop := Forall (fun kv => (0 < snd kv)%Q) c.

(** [sum(l)] *)
Definition Qsum (l : list Q) : Q := fold_right Qplus 0%Q l.

(** The search for [query] answered, and [label] is among the results. *)
Definition returned (W : wikipedia) (label query : string) : bool :=
  match search W query with
  | Return results => existsb (String.eqb label) results
  | Raise _ => false
  end.

(** The rank of [label] in the results of [query]: its position there, the
    last one if it occurs several times. *)
Definition rank_in (W : wikipedia) (label query : string) : nat :=
  match search W query with
  | Return results => match last_index label results with Some j => j | None => 0 end
  | Raise _ => 0
  end.

(** The sum, over the queries that returned [label], of [2^(-rank)]. *)
Definition total_score (W : wikipedia) (label : string) (queries : list string) : Q :=
  Qsum (map (fun q => pow2_neg (rank_in W label q)) (filter (returned W label) queries)).

(** [a] may stand before [b] in a list sorted by descending score. *)
Definition score_ge (a b : string * score) : Prop := (snd b <= snd a)%Q.

(** The items whose score equals [s]. *)
Definition has_score (s : score) (kv : string * score) : bool := Qeq_bool (snd kv) s.

(** No count of the counter is negative: the invariant of a score map. *)
Definition non_negative (c : Counter) : Prop := Forall (fun kv => (0 <= snd kv)%Q) c.

(* ----------------------------------------------------------------- *)
(** ** Collaborators used in the examples *)

(** Every search answers with the same title twice. *)
Definition repeating : wikipedia :=
  {| search := fun _ => Return ["X"; "X"];
     page_categories := fun _ => Return [] |}.

(** The query ["a b"] finds X, Y and X again, any other query finds Y and Z;
    only X has a page, filed under Y and Q. *)
Definition sample : wikipedia :=
  {| search := fun q => if String.eqb q "a b" then Return ["X"; "Y"; "X"]
                        else Return ["Y"; "Z"];
     page_categories := fun t => if String.eqb t "X" then Return ["Y"; "Q"]
                                 else Raise PageError |}.

(** No page can be fetched: every lookup fails with [PageError]. *)
Definition pageless : wikipedia :=
  {| search := fun _ => Return ["X"; "Y"];
     page_categories := fun _ => Raise PageError |}.

(** The search fails for the query ["a c"] and finds X for any other. *)
Definition flaky : wikipedia :=
  {| search := fun q => if String.eqb q "a c" then Raise WikipediaException
                        else Return ["X"];
     page_categories := fun _ => Raise PageError |}.

(** 128 distinct queries, none of them ["q"]: a, aa, aaa, ... *)
Definition other_queries : list string :=
  map (fun n => string_of_list_ascii (repeat "a"%char n)) (seq 1 128).

(* ================================================================= *)
(** * Part II: properties *)

(* ----------------------------------------------------------------- *)
(** ** Scores *)

Lemma pow2_neg_pos (i : nat) : (0 < pow2_neg i)%Q.
Proof. unfold pow2_neg. apply Qpower_0_lt. reflexivity. Qed.

Lemma pow2_neg_0 : pow2_neg 0 = 1%Q.
Proof. reflexivity. Qed.

Lemma Qltb_lt (x y : Q) : Qltb x y = true <-> (x < y)%Q.
Proof.
  unfold Qltb. rewrite negb_true_iff. split; intros H.
  - apply Qnot_le_lt. intros Hle. apply Qle_bool_iff in Hle. congruence.
  - destruct (Qle_bool y x) eqn:E; [|reflexivity].
    apply Qle_bool_iff in E. exfalso. exact (Qlt_not_le _ _ H E).
Qed.

(* ----------------------------------------------------------------- *)
(** ** Counter *)

Lemma Counter_get_set_same (c : Counter) (k : string) (v : score) :
  Counter_get (Counter_set c k v) k = v.
Proof.
  induction c as [|[k' v'] c IH]; simpl.
  - now rewrite String.eqb_refl.
  - destruct (String.eqb k' k) eqn:E; simpl; rewrite E; auto.
Qed.

Lemma Counter_get_set_other (c : Counter) (k k' : string) (v : score) :
  k <> k' -> Counter_get (Counter_set c k v) k' = Counter_get c k'.
Proof.
  intros Hne. induction c as [|[k0 v0] c IH]; simpl.
  - apply String.eqb_neq in Hne. now rewrite Hne.
  - destruct (String.eqb k0 k) eqn:E; simpl.
    + apply String.eqb_eq in E. subst k0.
      apply String.eqb_neq in Hne. now rewrite Hne.
    + now rewrite IH.
Qed.

Lemma Counter_contains_In (c : Counter) (k : string) :
  Counter_contains c k = true <-> In k (Counter_keys c).
Proof.
  induction c as [|[k' v'] c IH]; simpl.
  - split; [discriminate | tauto].
  - destruct (String.eqb k' k) eqn:E.
    + apply String.eqb_eq in E. tauto.
    + apply String.eqb_neq in E. rewrite IH. tauto.
Qed.

Lemma Counter_keys_set_present (c : Counter) (k : string) (v : score) :
  In k (Counter_keys c) -> Counter_keys (Counter_set c k v) = Counter_keys c.
Proof.
  induction c as [|[k' v'] c IH]; simpl; [tauto|].
  intros [->|Hin].
  - now rewrite String.eqb_refl.
  - destruct (String.eqb k' k); simpl; [reflexivity|].
    f_equal. now apply IH.
Qed.

Lemma Counter_keys_set_absent (c : Counter) (k : string) (v : score) :
  ~ In k (Counter_keys c) -> Counter_keys (Counter_set c k v) = Counter_keys c ++ [k].
Proof.
  induction c as [|[k' v'] c IH]; simpl; [reflexivity|].
  intros Hnin. destruct (String.eqb k' k) eqn:E.
  - apply String.eqb_eq in E. tauto.
  - simpl. f_equal. apply IH. tauto.
Qed.

(* ----------------------------------------------------------------- *)
(** ** last_index *)

Lemma last_index_None (t : string) (r : list string) :
  last_index t r = None <-> ~ In t r.
Proof.
  induction r as [|x xs IH]; simpl; [tauto|].
  destruct (last_index t xs) as [j|].
  - split; [discriminate|]. intros H. exfalso. apply H. right.
    destruct (in_dec string_dec t xs) as [Hin|Hnin]; [assumption|].
    apply IH in Hnin. discriminate.
  - destruct (String.eqb x t) eqn:E.
    + apply String.eqb_eq in E. split; [discriminate | tauto].
    + apply String.eqb_neq in E. split; [|reflexivity].
      intros _ [H|H]; [tauto|]. now apply IH.
Qed.

Lemma last_index_Some (t : string) (r : list string) (j : nat) :
  last_index t r = Some j <->
  nth_error r j = Some t /\ forall k, nth_error r k = Some t -> k <= j.
Proof.
  revert j. induction r as [|x xs IH]; intros j; simpl.
  - split; [discriminate|]. intros [H _]. now destruct j.
  - destruct (last_index t xs) as [j'|] eqn:El.
    + destruct (IH j') as [IH1 _]. destruct (IH1 eq_refl) as [Hn Hmax].
      split.
      * intros [= <-]. simpl. split; [assumption|].
        intros [|k] Hk; [lia|]. apply Hmax in Hk. lia.
      * intros [Hj Hjmax]. f_equal.
        assert (S j' <= j) by (apply Hjmax; assumption).
        destruct j as [|j]; [lia|]. simpl in Hj.
        assert (j <= j') by (apply Hmax; assumption). lia.
    + apply last_index_None in El.
      destruct (String.eqb x t) eqn:E.
      * apply String.eqb_eq in E. subst x. split.
        -- intros [= <-]. split; [reflexivity|].
           intros [|k] Hk; [lia|]. simpl in Hk. apply nth_error_In in Hk. tauto.
        -- intros [Hj _]. destruct j as [|j]; [reflexivity|].
           simpl in Hj. apply nth_error_In in Hj. tauto.
      * apply String.eqb_neq in E. split; [discriminate|].
        intros [Hj _]. destruct j as [|j]; simpl in Hj.
        -- congruence.
        -- apply nth_error_In in Hj. tauto.
Qed.

(* ----------------------------------------------------------------- *)
(** ** The dict comprehension of rank_wiki_labels *)

Lemma rank_fold_get (r : list string) (i : nat) (d : Counter) (t : string) :
  Counter_get
    (fold_left (fun d ir => Counter_set d (snd ir) (pow2_neg (fst ir)))
               (enumerate_from i r) d) t
  = match last_index t r with
    | Some j => pow2_neg (i + j)
    | None => Counter_get d t
    end.
Proof.
  revert i d. induction r as [|x xs IH]; intros i d; simpl; [reflexivity|].
  rewrite IH. destruct (last_index t xs) as [j|].
  - f_equal. lia.
  - destruct (String.eqb x t) eqn:E.
    + apply String.eqb_eq in E. subst x.
      rewrite Counter_get_set_same. f_equal. lia.
    + apply String.eqb_neq in E. now apply Counter_get_set_other.
Qed.

Lemma rank_results_get (r : list string) (t : string) :
  Counter_get (rank_results r) t
  = match last_index t r with Some j => pow2_neg j | None => 0%Q end.
Proof. unfold rank_results, enumerate. now rewrite rank_fold_get. Qed.

(* ----------------------------------------------------------------- *)
(** ** lru_cache returns what the decorated function returns *)

Section LruTransparent.
Context {V : Type}.
Variable f : string -> outcome V.

Lemma lru_find_drop_other (k k' : string) (es : list (string * V)) :
  k <> k' -> lru_find k' (lru_drop k es) = lru_find k' es.
Proof.
  intros Hne. induction es as [|[k0 v0] es IH]; simpl; [reflexivity|].
  destruct (String.eqb k0 k) eqn:E; simpl.
  - apply String.eqb_eq in E. subst k0.
    apply String.eqb_neq in Hne. now rewrite Hne.
  - now rewrite IH.
Qed.

Lemma lru_find_firstn (n : nat) (k : string) (es : list (string * V)) (v : V) :
  lru_find k (firstn n es) = Some v -> lru_find k es = Some v.
Proof.
  revert n. induction es as [|[k0 v0] es IH]; intros [|n]; simpl; try discriminate.
  destruct (String.eqb k0 k); [trivial | apply IH].
Qed.

Lemma lru_consistent_empty : lru_consistent f lru_empty.
Proof. intros k v. discriminate. Qed.

Lemma lru_cache_returns (c : lru V) (k : string) :
  lru_consistent f c -> fst (lru_cache f k c) = f k.
Proof.
  intros Hc. unfold lru_cache.
  destruct (lru_find k (entries c)) as [v|] eqn:E; simpl.
  - symmetry. now apply Hc.
  - now destruct (f k).
Qed.

Lemma lru_cache_consistent (c : lru V) (k : string) :
  lru_consistent f c -> lru_consistent f (snd (lru_cache f k c)).
Proof.
  intros Hc k' v'. unfold lru_cache.
  destruct (lru_find k (entries c)) as [v|] eqn:E; simpl.
  - destruct (String.eqb k k') eqn:Ek.
    + apply String.eqb_eq in Ek. subst k'. intros [= <-]. now apply Hc.
    + apply String.eqb_neq in Ek. rewrite lru_find_drop_other by assumption. apply Hc.
  - destruct (f k) as [v|e] eqn:Ef; simpl; [|apply Hc].
    intros H. apply (lru_find_firstn maxsize k' ((k, v) :: entries c)) in H.
    simpl in H. destruct (String.eqb k k') eqn:Ek.
    + apply String.eqb_eq in Ek. subst k'. congruence.
    + now apply Hc.
Qed.
End LruTransparent.

(* ----------------------------------------------------------------- *)
(** ** rank_wiki_labels *)

Lemma rank_wiki_labels_returns (W : wikipedia) (c : lru Counter) (q : string)
      (r : list string) :
  lru_consistent (rank_wiki_labels_body W) c ->
  search W q = Return r ->
  fst (rank_wiki_labels W q c) = Return (rank_results r).
Proof.
  intros Hc Hs. unfold rank_wiki_labels. rewrite lru_cache_returns by assumption.
  unfold rank_wiki_labels_body. now rewrite Hs.
Qed.

(** C1 (as amended): when the search for a query answers [r], the ranked
    search returns a score map that gives [2^(-i)] to the title at position
    [i] of [r], provided that title does not occur again after position [i];
    in particular a first title that does not recur scores exactly 1. *)
Theorem rank_wiki_labels_score_at_position
        (W : wikipedia) (c : lru Counter) (q : string) (r : list string)
        (i : nat) (t : string) :
  lru_consistent (rank_wiki_labels_body W) c ->
  search W q = Return r ->
  nth_error r i = Some t ->
  (forall k, i < k -> nth_error r k <> Some t) ->
  exists counts,
    fst (rank_wiki_labels W q c) = Return counts /\
    Counter_get counts t = pow2_neg i /\
    (i = 0 -> Counter_get counts t = 1%Q).
Proof.
  intros Hc Hs Hi Hlast. exists (rank_results r).
  split; [now apply rank_wiki_labels_returns|].
  assert (Hl : last_index t r = Some i).
  { apply last_index_Some. split; [assumption|].
    intros k Hk. destruct (Nat.le_gt_cases k i) as [|Hgt]; [assumption|].
    exfalso. exact (Hlast k Hgt Hk). }
  rewrite rank_results_get, Hl. split; [reflexivity|].
  intros ->. reflexivity.
Qed.

Lemma rank_wiki_labels_score_at_position_witness :
  exists counts,
    fst (rank_wiki_labels sample "b c" lru_empty) = Return counts /\
    Counter_get counts "Y" = pow2_neg 0 /\
    (0 = 0 -> Counter_get counts "Y" = 1%Q).
Proof.
  apply (rank_wiki_labels_score_at_position sample lru_empty "b c" ["Y"; "Z"] 0 "Y").
  - apply lru_consistent_empty.
  - reflexivity.
  - reflexivity.
  - intros [|[|[|k]]] Hk; simpl; try lia; discriminate.
Defined.

(** C1 fails as stated: when the search answers X twice, the title at
    position 0 is X and its score is 1/2, not 1. *)
Lemma rank_wiki_labels_first_title_counterexample :
  search repeating "q" = Return ["X"; "X"] /\
  nth_error ["X"; "X"] 0 = Some "X" /\
  fst (rank_wiki_labels repeating "q" lru_empty) = Return [("X", (1 # 2)%Q)] /\
  ~ (Counter_get [("X", (1 # 2)%Q)] "X" == pow2_neg 0)%Q.
Proof.
  repeat split. intros H. vm_compute in H. discriminate.
Qed.

(** C10: when a title occurs at several positions of one search result, the
    score map of that query gives it [2^(-j)] for its last position [j]; the
    contribution of an earlier occurrence is overwritten, not added. *)
Theorem rank_wiki_labels_last_occurrence_wins
        (W : wikipedia) (c : lru Counter) (q : string) (r : list string)
        (i j : nat) (t : string) :
  lru_consistent (rank_wiki_labels_body W) c ->
  search W q = Return r ->
  nth_error r i = Some t ->
  nth_error r j = Some t ->
  i < j ->
  (forall k, nth_error r k = Some t -> k <= j) ->
  exists counts,
    fst (rank_wiki_labels W q c) = Return counts /\
    Counter_get counts t = pow2_neg j /\
    ~ (Counter_get counts t == pow2_neg i + pow2_neg j)%Q.
Proof.
  intros Hc Hs Hi Hj Hij Hmax. exists (rank_results r).
  split; [now apply rank_wiki_labels_returns|].
  assert (Hl : last_index t r = Some j) by (apply last_index_Some; auto).
  rewrite rank_results_get, Hl. split; [reflexivity|].
  intros Heq. pose proof (pow2_neg_pos i) as Hpos.
  assert (H0 : (pow2_neg i == 0)%Q).
  { apply (Qplus_inj_r _ _ (pow2_neg j)). rewrite Qplus_0_l. now symmetry. }
  rewrite H0 in Hpos. discriminate.
Qed.

Lemma rank_wiki_labels_last_occurrence_wins_witness :
  exists counts,
    fst (rank_wiki_labels sample "a b" lru_empty) = Return counts /\
    Counter_get counts "X" = pow2_neg 2 /\
    ~ (Counter_get counts "X" == pow2_neg 0 + pow2_neg 2)%Q.
Proof.
  apply (rank_wiki_labels_last_occurrence_wins
           sample lru_empty "a b" ["X"; "Y"; "X"] 0 2 "X").
  - apply lru_consistent_empty.
  - reflexivity.
  - reflexivity.
  - reflexivity.
  - lia.
  - intros [|[|[|k]]] Hk; simpl in Hk; try lia.
    destruct k; discriminate.
Defined.

(* ----------------------------------------------------------------- *)
(** ** lru_cache keeps the 128 most recently used keys *)

Section LruRecency.
Context {V : Type}.
Variable f : string -> outcome V.

Lemma lru_find_None (k : string) (es : list (string * V)) :
  lru_find k es = None -> ~ In k (map fst es).
Proof.
  induction es as [|[k0 v0] es IH]; simpl; [tauto|].
  destruct (String.eqb k0 k) eqn:E; [discriminate|].
  apply String.eqb_neq in E. intros H [H'|H']; [tauto | now apply IH].
Qed.

Lemma lru_find_middle (k : string) (v : V) (pre post : list (string * V)) :
  ~ In k (map fst pre) -> lru_find k (pre ++ (k, v) :: post) = Some v.
Proof.
  induction pre as [|[k0 v0] pre IH]; simpl; intros Hnin.
  - now rewrite String.eqb_refl.
  - destruct (String.eqb k0 k) eqn:E.
    + apply String.eqb_eq in E. tauto.
    + apply IH. tauto.
Qed.

Lemma lru_drop_keys (k : string) (es : list (string * V)) :
  ~ In k (map fst (lru_drop k es)) /\
  incl (map fst (lru_drop k es)) (map fst es) /\
  (NoDup (map fst es) -> NoDup (map fst (lru_drop k es))).
Proof.
  induction es as [|[k0 v0] es (IH1 & IH2 & IH3)]; simpl.
  - repeat split; [tauto | apply incl_refl | trivial].
  - destruct (String.eqb k0 k) eqn:E; simpl.
    + repeat split; [assumption | now apply incl_tl |].
      intros Hnd. inversion Hnd; auto.
    + apply String.eqb_neq in E. repeat split.
      * tauto.
      * intros x [<-|Hx]; [now left | right; now apply IH2].
      * intros Hnd. inversion Hnd as [|? ? Hn Hnd']; subst.
        constructor; [|now apply IH3].
        intros Hin. apply Hn. now apply IH2.
Qed.

Lemma lru_drop_middle (k k' : string) (v : V) (pre post : list (string * V)) :
  k' <> k ->
  lru_drop k' (pre ++ (k, v) :: post) = lru_drop k' pre ++ (k, v) :: lru_drop k' post.
Proof.
  intros Hne. unfold lru_drop. rewrite filter_app. simpl.
  apply not_eq_sym in Hne. apply String.eqb_neq in Hne. now rewrite Hne.
Qed.

Lemma recent_after_store (k : string) (v : V) (others : list string) (c : lru V) :
  fst (lru_cache f k c) = Return v -> recent k v others (snd (lru_cache f k c)).
Proof.
  unfold lru_cache. destruct (lru_find k (entries c)) as [v0|] eqn:E; simpl.
  - intros [= ->]. exists [], (lru_drop k (entries c)). simpl.
    repeat split; [constructor | intros x [] | tauto].
  - destruct (f k) as [v0|e]; simpl; [|discriminate].
    intros [= ->]. exists [], (firstn (pred maxsize) (entries c)).
    repeat split; [constructor | intros x [] | simpl; tauto].
Qed.

Lemma recent_step (k : string) (v : V) (others : list string) (c : lru V) (k' : string) :
  List.length (nodup string_dec others) < maxsize ->
  k' = k \/ In k' others ->
  recent k v others c ->
  recent k v others (snd (lru_cache f k' c)).
Proof.
  intros Hcap Hk' (pre & post & He & Hnd & Hincl & Hnin).
  assert (Hlen : forall l, NoDup l -> incl l others -> List.length l < maxsize).
  { intros l Hl Hi. eapply Nat.le_lt_trans; [|exact Hcap].
    apply NoDup_incl_length; [assumption|].
    intros x Hx. apply nodup_In. now apply Hi. }
  destruct (string_dec k' k) as [->|Hne].
  - unfold lru_cache. rewrite He, lru_find_middle by assumption. simpl.
    exists [], (lru_drop k (pre ++ (k, v) :: post)). simpl.
    repeat split; [constructor | intros x [] | tauto].
  - destruct Hk' as [Hk'|Hk']; [contradiction|].
    unfold lru_cache.
    destruct (lru_find k' (entries c)) as [v'|] eqn:E; cbn [fst snd entries].
    + rewrite He, lru_drop_middle by assumption.
      destruct (lru_drop_keys k' pre) as (D1 & D2 & D3).
      exists ((k', v') :: lru_drop k' pre), (lru_drop k' post).
      simpl. repeat split.
      * constructor; [assumption | now apply D3].
      * intros x [<-|Hx]; [assumption | apply Hincl; now apply D2].
      * intros [H|H]; [contradiction | apply Hnin; now apply D2].
    + destruct (f k') as [v'|e]; cbn [fst snd entries].
      * apply lru_find_None in E. rewrite He in E.
        rewrite map_app, in_app_iff in E.
        assert (Hnd' : NoDup (k' :: map fst pre)) by (constructor; tauto).
        assert (Hin' : incl (k' :: map fst pre) others).
        { intros x [<-|Hx]; [assumption | now apply Hincl]. }
        pose proof (Hlen _ Hnd' Hin') as Hl. simpl in Hl. rewrite length_map in Hl.
        exists ((k', v') :: pre), (firstn (maxsize - S (S (List.length pre))) post).
        repeat split; try assumption.
        -- rewrite He.
           change ((k', v') :: pre ++ (k, v) :: post)
             with (((k', v') :: pre) ++ (k, v) :: post).
           rewrite firstn_app, firstn_all2 by (simpl; lia).
           f_equal. simpl List.length.
           replace (maxsize - S (List.length pre))
             with (S (maxsize - S (S (List.length pre)))) by lia.
           reflexivity.
        -- simpl. intros [H|H]; [contradiction | tauto].
      * exists pre, post. repeat split; assumption.
Qed.

Lemma recent_calls (k : string) (v : V) (others ks : list string) (c : lru V) :
  List.length (nodup string_dec others) < maxsize ->
  Forall (fun k' => k' = k \/ In k' others) ks ->
  recent k v others c ->
  recent k v others (lru_calls f ks c).
Proof.
  intros Hcap Hks. revert c. induction Hks as [|k' ks Hk' _ IH]; intros c Hr.
  - exact Hr.
  - simpl. apply IH. now apply recent_step.
Qed.

Lemma recent_hit (k : string) (v : V) (others : list string) (c : lru V) :
  recent k v others c ->
  fst (lru_cache f k c) = Return v /\ sent (snd (lru_cache f k c)) = sent c.
Proof.
  intros (pre & post & He & _ & _ & Hnin). unfold lru_cache.
  rewrite He, lru_find_middle by assumption. simpl. tauto.
Qed.

(** A key whose call returned is served from the store on its next call,
    as long as fewer than [maxsize] distinct other keys were called in
    between. *)
Lemma lru_cache_hit_within_capacity (c : lru V) (k : string) (v : V) (ks : list string) :
  fst (lru_cache f k c) = Return v ->
  distinct_others k ks < maxsize ->
  let c1 := lru_calls f ks (snd (lru_cache f k c)) in
  fst (lru_cache f k c1) = Return v /\ sent (snd (lru_cache f k c1)) = sent c1.
Proof.
  intros Hv Hcap c1. apply (recent_hit k v (remove string_dec k ks)).
  apply recent_calls; [exact Hcap | | now apply recent_after_store].
  apply Forall_forall. intros k' Hin.
  destruct (string_dec k' k) as [->|Hne]; [now left | right].
  apply in_in_remove; assumption.
Qed.
End LruRecency.

(** C8 (as amended): each of the two memoization stores keeps the results of
    the 128 most recently used keys.  A query (a title) whose lookup returned
    is answered from the store, without a new call of the collaborator, on a
    later identical lookup whenever fewer than 128 distinct other queries
    (titles) were looked up in between. *)
Theorem memoized_lookup_not_resent_within_capacity
        (W : wikipedia) (rc : lru Counter) (cc : lru (list string))
        (query title : string) (counts : Counter) (cats : list string)
        (queries titles : list string) :
  fst (rank_wiki_labels W query rc) = Return counts ->
  fst (get_wiki_cats W title cc) = Return cats ->
  distinct_others query queries < maxsize ->
  distinct_others title titles < maxsize ->
  let rc1 := lru_calls (rank_wiki_labels_body W) queries (snd (rank_wiki_labels W query rc)) in
  let cc1 := lru_calls (get_wiki_cats_body W) titles (snd (get_wiki_cats W title cc)) in
  (fst (rank_wiki_labels W query rc1) = Return counts /\
   sent (snd (rank_wiki_labels W query rc1)) = sent rc1) /\
  (fst (get_wiki_cats W title cc1) = Return cats /\
   sent (snd (get_wiki_cats W title cc1)) = sent cc1).
Proof.
  intros Hq Ht Hqs Hts rc1 cc1. split.
  - now apply lru_cache_hit_within_capacity.
  - now apply lru_cache_hit_within_capacity.
Qed.

Lemma memoized_lookup_not_resent_within_capacity_witness :
  let rc1 := lru_calls (rank_wiki_labels_body sample) ["b c"; "a c"]
                       (snd (rank_wiki_labels sample "a b" lru_empty)) in
  let cc1 := lru_calls (get_wiki_cats_body sample) ["Y"]
                       (snd (get_wiki_cats sample "X" lru_empty)) in
  (fst (rank_wiki_labels sample "a b" rc1) = Return (rank_results ["X"; "Y"; "X"]) /\
   sent (snd (rank_wiki_labels sample "a b" rc1)) = sent rc1) /\
  (fst (get_wiki_cats sample "X" cc1) = Return ["Y"; "Q"] /\
   sent (snd (get_wiki_cats sample "X" cc1)) = sent cc1).
Proof.
  apply (memoized_lookup_not_resent_within_capacity
           sample lru_empty lru_empty "a b" "X"
           (rank_results ["X"; "Y"; "X"]) ["Y"; "Q"] ["b c"; "a c"] ["Y"]).
  - reflexivity.
  - reflexivity.
  - vm_compute. lia.
  - vm_compute. lia.
Defined.

(** C8 fails as stated: after ["q"] has been looked up, 128 lookups of other
    queries evict it, and the next lookup of ["q"] is sent to the search
    again. *)
Lemma rank_cache_eviction_counterexample :
  let c0 := snd (rank_wiki_labels repeating "q" lru_empty) in
  let c1 := lru_calls (rank_wiki_labels_body repeating) other_queries c0 in
  sent c0 = ["q"] /\
  existsb (String.eqb "q") other_queries = false /\
  sent (snd (rank_wiki_labels repeating "q" c1)) = "q" :: sent c1.
Proof.
  vm_compute. repeat split.
Qed.

(* ----------------------------------------------------------------- *)
(** ** itertools.combinations *)

Lemma StronglySorted_app {A} (R : A -> A -> Prop) (l1 l2 : list A) :
  StronglySorted R l1 -> StronglySorted R l2 ->
  (forall x y, In x l1 -> In y l2 -> R x y) ->
  StronglySorted R (l1 ++ l2).
Proof.
  intros H1 H2 H12. induction H1 as [|x l1 Hs IH Hx]; simpl; [assumption|].
  constructor.
  - apply IH. intros a b Ha Hb. apply H12; [now right | assumption].
  - apply Forall_app. split; [assumption|].
    apply Forall_forall. intros y Hy. apply H12; [now left | assumption].
Qed.

Lemma StronglySorted_map {A B} (R : A -> A -> Prop) (R' : B -> B -> Prop)
      (g : A -> B) (l : list A) :
  (forall x y, R x y -> R' (g x) (g y)) ->
  StronglySorted R l -> StronglySorted R' (map g l).
Proof.
  intros Hg Hs. induction Hs as [|x l Hs IH Hx]; simpl; constructor; [assumption|].
  apply Forall_map. eapply Forall_impl; [|exact Hx]. intros y. apply Hg.
Qed.

Lemma position_lists_In (n : nat) : forall start r ps,
  In ps (position_lists start n r) <->
  List.length ps = r /\ StronglySorted lt ps /\
  Forall (fun p => start <= p < start + n) ps.
Proof.
  induction n as [|n IH]; intros start r ps.
  - destruct r as [|r]; simpl.
    + split.
      * intros [<-|[]]. repeat split; constructor.
      * intros (Hl & _ & _). destruct ps; [now left | discriminate].
    + split; [tauto|]. intros (Hl & _ & Hr).
      destruct ps as [|p ps]; [discriminate|].
      inversion Hr; subst. lia.
  - destruct r as [|r]; simpl.
    + split.
      * intros [<-|[]]. repeat split; constructor.
      * intros (Hl & _ & _). destruct ps; [now left | discriminate].
    + rewrite in_app_iff, in_map_iff. split.
      * intros [(ps' & <- & Hin)|Hin].
        -- apply IH in Hin. destruct Hin as (Hl & Hs & Hr). repeat split.
           ++ simpl. now f_equal.
           ++ constructor; [assumption|].
              eapply Forall_impl; [|exact Hr]. simpl. intros; lia.
           ++ constructor; [lia|].
              eapply Forall_impl; [|exact Hr]. simpl. intros; lia.
        -- apply IH in Hin. destruct Hin as (Hl & Hs & Hr). repeat split; try assumption.
           eapply Forall_impl; [|exact Hr]. simpl. intros; lia.
      * intros (Hl & Hs & Hr). destruct ps as [|p ps]; [discriminate|].
        inversion Hs as [|? ? Hs' Hp]; subst. inversion Hr as [|? ? Hp0 Hr']; subst.
        injection Hl as Hl.
        assert (Hgt : Forall (fun q => S start <= q < S start + n) ps).
        { rewrite Forall_forall in *. intros q Hq.
          specialize (Hp q Hq). specialize (Hr' q Hq). simpl in *. lia. }
        destruct (Nat.eq_dec p start) as [->|Hne].
        -- left. exists ps. split; [reflexivity|]. apply IH. auto.
        -- right. apply IH. repeat split.
           ++ simpl. now f_equal.
           ++ assumption.
           ++ constructor; [lia | assumption].
Qed.

Lemma position_lists_sorted (n : nat) : forall start r,
  StronglySorted lex_lt (position_lists start n r).
Proof.
  induction n as [|n IH]; intros start r.
  - destruct r; simpl; repeat constructor.
  - destruct r as [|r]; simpl; [repeat constructor|].
    apply StronglySorted_app.
    + apply (StronglySorted_map lex_lt); [|apply IH].
      intros x y. apply lex_lt_tail.
    + apply IH.
    + intros x y Hx Hy. apply in_map_iff in Hx. destruct Hx as (x' & <- & _).
      apply position_lists_In in Hy. destruct Hy as (Hl & _ & Hr).
      destruct y as [|q y]; [discriminate|].
      inversion Hr; subst. apply lex_lt_head. lia.
Qed.

Lemma subsequences_positions {A} (d : A) (pool : list A) : forall start r,
  subsequences pool r
  = map (map (fun p => nth (p - start) pool d))
        (position_lists start (List.length pool) r).
Proof.
  induction pool as [|x xs IH]; intros start r.
  - destruct r; reflexivity.
  - destruct r as [|r]; [reflexivity|].
    simpl subsequences. simpl List.length. simpl position_lists.
    rewrite map_app, map_map.
    assert (Hshift : forall r' ps, In ps (position_lists (S start) (List.length xs) r') ->
              map (fun p => nth (p - start) (x :: xs) d) ps
              = map (fun p => nth (p - S start) xs d) ps).
    { intros r' ps Hin. apply position_lists_In in Hin. destruct Hin as (_ & _ & Hr).
      apply map_ext_in. intros p Hp. rewrite Forall_forall in Hr. specialize (Hr p Hp).
      replace (p - start) with (S (p - S start)) by lia. reflexivity. }
    f_equal.
    + rewrite (IH (S start) r), map_map. apply map_ext_in. intros ps Hin.
      simpl. rewrite Nat.sub_diag. f_equal. symmetry. now apply (Hshift r).
    + rewrite (IH (S start) (S r)). apply map_ext_in. intros ps Hin.
      symmetry. now apply (Hshift (S r)).
Qed.

(* ----------------------------------------------------------------- *)
(** ** bootstrap_topic *)

Lemma subsequences_0 {A} (pool : list A) : subsequences pool 0 = [[]].
Proof. now destruct pool. Qed.

Lemma bootstrap_topic_unfold (topic anchors : list string) (n : Z) :
  (0 <= n)%Z ->
  bootstrap_topic topic anchors n
  = Return (map (fun ts => join " " (ts ++ anchors))
                (subsequences topic (Z.to_nat (Z.min n (Z.of_nat (List.length topic)))))).
Proof.
  intros Hn. unfold bootstrap_topic, combinations.
  destruct (Z.ltb_spec (Z.of_nat (List.length topic)) n) as [Hlt|Hge].
  - rewrite Z.min_r by lia.
    destruct (Z.ltb_spec (Z.of_nat (List.length topic)) 0); [lia | reflexivity].
  - rewrite Z.min_l by lia.
    destruct (Z.ltb_spec n 0); [lia | reflexivity].
Qed.

(** C4: a bootstrap size larger than the topic yields the same queries as a
    bootstrap size equal to the length of the topic, and does not raise. *)
Theorem bootstrap_topic_oversized
        (topic contextual_anchors : list string) (n_terms : Z) :
  (Z.of_nat (List.length topic) < n_terms)%Z ->
  bootstrap_topic topic contextual_anchors n_terms
  = bootstrap_topic topic contextual_anchors (Z.of_nat (List.length topic)) /\
  exists queries, bootstrap_topic topic contextual_anchors n_terms = Return queries.
Proof.
  intros Hn. rewrite !bootstrap_topic_unfold by lia.
  rewrite Z.min_r, Z.min_id by lia. split; [reflexivity | eauto].
Qed.

Lemma bootstrap_topic_oversized_witness :
  bootstrap_topic ["a"; "b"] ["m"] 3 = bootstrap_topic ["a"; "b"] ["m"] (Z.of_nat 2) /\
  exists queries, bootstrap_topic ["a"; "b"] ["m"] 3 = Return queries.
Proof.
  apply (bootstrap_topic_oversized ["a"; "b"] ["m"] 3). simpl. lia.
Defined.

(** C9: when the clamped bootstrap size is 0, which covers an empty topic
    with a non-negative size, the generator yields exactly one query: the
    anchors joined by spaces, the empty string when there is no anchor. *)
Theorem bootstrap_topic_size_zero
        (topic contextual_anchors : list string) (n_terms : Z) :
  Z.min n_terms (Z.of_nat (List.length topic)) = 0%Z ->
  bootstrap_topic topic contextual_anchors n_terms = Return [join " " contextual_anchors] /\
  (contextual_anchors = [] -> bootstrap_topic topic contextual_anchors n_terms = Return [""]).
Proof.
  intros Hn.
  assert (H : bootstrap_topic topic contextual_anchors n_terms
              = Return [join " " contextual_anchors]).
  { rewrite bootstrap_topic_unfold by lia. rewrite Hn. simpl Z.to_nat.
    now rewrite subsequences_0. }
  split; [assumption|]. intros ->. exact H.
Qed.

Lemma bootstrap_topic_size_zero_witness :
  bootstrap_topic [] ["m"; "n"] 3 = Return [join " " ["m"; "n"]] /\
  (["m"; "n"] = [] -> bootstrap_topic [] ["m"; "n"] 3 = Return [""]).
Proof.
  apply (bootstrap_topic_size_zero [] ["m"; "n"] 3). reflexivity.
Defined.

(** C5: for a non-negative size, clamped to [n] terms, the generator yields
    one query per strictly increasing list of [n] positions of the topic:
    every such list of positions gives one query, the lists come in
    lexicographic order, and each query is the terms at those positions, in
    that order, followed by the anchors, joined by spaces.  The topic a, b, c
    with size 2 yields "a b", "a c", "b c". *)
Theorem bootstrap_topic_enumerates_combinations
        (topic contextual_anchors : list string) (n_terms : Z) :
  (0 <= n_terms)%Z ->
  exists positions : list (list nat),
    bootstrap_topic topic contextual_anchors n_terms
    = Return (map (query_at topic contextual_anchors) positions) /\
    (forall ps, In ps positions <->
                List.length ps = Z.to_nat (Z.min n_terms (Z.of_nat (List.length topic))) /\
                StronglySorted lt ps /\
                Forall (fun p => p < List.length topic) ps) /\
    StronglySorted lex_lt positions /\
    bootstrap_topic ["a"; "b"; "c"] contextual_anchors 2
    = Return [join " " (["a"; "b"] ++ contextual_anchors);
              join " " (["a"; "c"] ++ contextual_anchors);
              join " " (["b"; "c"] ++ contextual_anchors)] /\
    bootstrap_topic ["a"; "b"; "c"] [] 2 = Return ["a b"; "a c"; "b c"].
Proof.
  intros Hn.
  exists (position_lists 0 (List.length topic)
                         (Z.to_nat (Z.min n_terms (Z.of_nat (List.length topic))))).
  split; [|split; [|split; [|split]]].
  - rewrite bootstrap_topic_unfold by assumption.
    rewrite (subsequences_positions "" topic 0), map_map. f_equal.
    apply map_ext. intros ps. unfold query_at. do 2 f_equal.
    apply map_ext. intros p. now rewrite Nat.sub_0_r.
  - intros ps. rewrite position_lists_In. simpl.
    split; intros (Hl & Hs & Hr); repeat split; try assumption.
    + eapply Forall_impl; [|exact Hr]. simpl. intros; lia.
    + eapply Forall_impl; [|exact Hr]. simpl. intros; lia.
  - apply position_lists_sorted.
  - reflexivity.
  - reflexivity.
Qed.

Lemma bootstrap_topic_enumerates_combinations_witness :
  exists positions : list (list nat),
    bootstrap_topic ["a"; "b"; "c"] ["m"] 2
    = Return (map (query_at ["a"; "b"; "c"] ["m"]) positions) /\
    (forall ps, In ps positions <->
                List.length ps = Z.to_nat (Z.min 2 (Z.of_nat (List.length ["a"; "b"; "c"]))) /\
                StronglySorted lt ps /\
                Forall (fun p => p < List.length ["a"; "b"; "c"]) ps) /\
    StronglySorted lex_lt positions /\
    bootstrap_topic ["a"; "b"; "c"] ["m"] 2
    = Return [join " " (["a"; "b"] ++ ["m"]);
              join " " (["a"; "c"] ++ ["m"]);
              join " " (["b"; "c"] ++ ["m"])] /\
    bootstrap_topic ["a"; "b"; "c"] [] 2 = Return ["a b"; "a c"; "b c"].
Proof.
  apply (bootstrap_topic_enumerates_combinations ["a"; "b"; "c"] ["m"] 2). lia.
Defined.

(* ----------------------------------------------------------------- *)
(** ** Counter.__iadd__ sums per key *)

Lemma Counter_get_absent (c : Counter) (k : string) :
  ~ In k (Counter_keys c) -> Counter_get c k = 0%Q.
Proof.
  induction c as [|[k' v'] c IH]; simpl; [reflexivity|].
  intros Hnin. destruct (String.eqb k' k) eqn:E.
  - apply String.eqb_eq in E. tauto.
  - apply IH. tauto.
Qed.

Lemma Counter_get_nonneg (c : Counter) (k : string) :
  all_positive c -> (0 <= Counter_get c k)%Q.
Proof.
  induction 1 as [|[k' v'] c Hv _ IH]; simpl.
  - apply Qle_refl.
  - destruct (String.eqb k' k); [now apply Qlt_le_weak | assumption].
Qed.

Lemma Counter_set_positive (c : Counter) (k : string) (v : score) :
  all_positive c -> (0 < v)%Q -> all_positive (Counter_set c k v).
Proof.
  intros Hc Hv. induction Hc as [|[k' v'] c Hv' Hc IH]; simpl.
  - repeat constructor. assumption.
  - destruct (String.eqb k' k); constructor; assumption.
Qed.

Lemma Counter_set_NoDup (c : Counter) (k : string) (v : score) :
  NoDup (Counter_keys c) -> NoDup (Counter_keys (Counter_set c k v)).
Proof.
  intros Hnd. destruct (in_dec string_dec k (Counter_keys c)) as [Hin|Hnin].
  - now rewrite Counter_keys_set_present.
  - rewrite Counter_keys_set_absent by assumption.
    apply NoDup_app; [assumption | repeat constructor; intros [] |].
    intros x Hx [<-|[]]. contradiction.
Qed.

Lemma keep_positive_id (c : Counter) : all_positive c -> keep_positive c = c.
Proof.
  induction 1 as [|kv c Hv _ IH]; simpl; [reflexivity|].
  apply Qltb_lt in Hv. rewrite Hv. now f_equal.
Qed.

Section Iadd.
Let step (self : Counter) (kv : string * score) : Counter :=
  Counter_set self (fst kv) (Counter_get self (fst kv) + snd kv)%Q.

Lemma iadd_loop_positive (other : Counter) : forall c,
  all_positive c -> all_positive other -> all_positive (fold_left step other c).
Proof.
  induction other as [|[k v] other IH]; intros c Hc Ho; simpl; [assumption|].
  inversion Ho as [|? ? Hv Ho']; subst. apply IH; [|assumption].
  apply Counter_set_positive; [assumption|]. simpl in *.
  apply Qlt_le_trans with (0 + v)%Q; [now rewrite Qplus_0_l|].
  apply Qplus_le_l. now apply Counter_get_nonneg.
Qed.

Lemma iadd_loop_get (other : Counter) : forall c k,
  NoDup (Counter_keys other) ->
  (Counter_get (fold_left step other c) k == Counter_get c k + Counter_get other k)%Q.
Proof.
  induction other as [|[k0 v0] other IH]; intros c k Hnd; simpl.
  - now rewrite Qplus_0_r.
  - inversion Hnd as [|? ? Hnin Hnd']; subst. rewrite IH by assumption.
    unfold step at 1. simpl. destruct (String.eqb k0 k) eqn:E.
    + apply String.eqb_eq in E. subst k0.
      rewrite Counter_get_set_same, (Counter_get_absent other k) by assumption.
      now rewrite Qplus_0_r.
    + apply String.eqb_neq in E. now rewrite Counter_get_set_other.
Qed.

Lemma Counter_iadd_positive (c other : Counter) :
  all_positive c -> all_positive other -> all_positive (Counter_iadd c other).
Proof.
  intros Hc Ho. unfold Counter_iadd. fold step.
  rewrite keep_positive_id; now apply iadd_loop_positive.
Qed.

Lemma Counter_iadd_get (c other : Counter) (k : string) :
  all_positive c -> all_positive other -> NoDup (Counter_keys other) ->
  (Counter_get (Counter_iadd c other) k == Counter_get c k + Counter_get other k)%Q.
Proof.
  intros Hc Ho Hnd. unfold Counter_iadd. fold step.
  rewrite keep_positive_id by now apply iadd_loop_positive.
  now apply iadd_loop_get.
Qed.
End Iadd.

Lemma rank_results_wf (r : list string) :
  all_positive (rank_results r) /\ NoDup (Counter_keys (rank_results r)).
Proof.
  unfold rank_results, enumerate. generalize 0.
  assert (H : all_positive [] /\ NoDup (Counter_keys [])) by (split; constructor).
  revert H. generalize (@nil (string * score)).
  induction r as [|x xs IH]; intros d [Hp Hn] i; simpl; [tauto|].
  apply IH. split.
  - apply Counter_set_positive; [assumption | apply pow2_neg_pos].
  - now apply Counter_set_NoDup.
Qed.

(* ----------------------------------------------------------------- *)
(** ** bootstrap_labeller *)

Lemma existsb_last_index (t : string) (r : list string) :
  existsb (String.eqb t) r = match last_index t r with Some _ => true | None => false end.
Proof.
  destruct (last_index t r) as [j|] eqn:E.
  - apply last_index_Some in E. destruct E as [E _]. apply nth_error_In in E.
    apply existsb_exists. exists t. split; [assumption | apply String.eqb_refl].
  - apply last_index_None in E. destruct (existsb (String.eqb t) r) eqn:Ex; [|reflexivity].
    apply existsb_exists in Ex. destruct Ex as (x & Hx & Heq).
    apply String.eqb_eq in Heq. subst x. contradiction.
Qed.

Lemma total_score_cons (W : wikipedia) (L q : string) (qs : list string) (r : list string) :
  search W q = Return r ->
  (total_score W L (q :: qs) == Counter_get (rank_results r) L + total_score W L qs)%Q.
Proof.
  intros Hs. unfold total_score. simpl filter. unfold returned at 1, rank_in.
  rewrite Hs, existsb_last_index, rank_results_get.
  destruct (last_index L r) as [j|] eqn:E; simpl.
  - rewrite Hs, E. reflexivity.
  - now rewrite Qplus_0_l.
Qed.

Section Aggregation.
Variable W : wikipedia.

Let body (counts : Counter) (topic_ : string) : M (lru Counter) Counter :=
  (ranked_labels <- rank_wiki_labels W topic_ ;;
   ret (Counter_iadd counts ranked_labels))%monad.

Lemma aggregate_loop (queries : list string) : forall (counts : Counter) (c : lru Counter),
  lru_consistent (rank_wiki_labels_body W) c ->
  all_positive counts ->
  (forall q, In q queries -> exists r, search W q = Return r) ->
  exists counts' c',
    for_each body queries counts c = (Return counts', c') /\
    all_positive counts' /\
    forall L, (Counter_get counts' L == Counter_get counts L + total_score W L queries)%Q.
Proof.
  induction queries as [|q qs IH]; intros counts c Hc Hp Hs.
  - exists counts, c. repeat split; [assumption|].
    intros L. unfold total_score. simpl. now rewrite Qplus_0_r.
  - destruct (Hs q (or_introl eq_refl)) as [r Hr].
    pose proof (rank_wiki_labels_returns W c q r Hc Hr) as Hret.
    pose proof (lru_cache_consistent (rank_wiki_labels_body W) c q Hc) as Hc1.
    fold (rank_wiki_labels W q) in Hc1.
    destruct (rank_results_wf r) as [Hrp Hrn].
    destruct (IH (Counter_iadd counts (rank_results r)) (snd (rank_wiki_labels W q c)))
      as (counts' & c' & Hrun & Hp' & Hget).
    + assumption.
    + now apply Counter_iadd_positive.
    + intros q' Hq'. apply Hs. now right.
    + exists counts', c'. repeat split; [|assumption|].
      * simpl. unfold bind at 1. unfold body at 1. unfold bind at 1.
        destruct (rank_wiki_labels W q c) as [o c1]. simpl in Hret, Hrun. subst o.
        exact Hrun.
      * intros L. rewrite Hget, total_score_cons by eassumption.
        rewrite Counter_iadd_get by assumption. now rewrite Qplus_assoc.
Qed.
End Aggregation.

(** C2: when every bootstrap query is answered by the search, the aggregator
    returns a score map whose score for every label is the sum, over the
    bootstrap queries whose results contain the label, of [2^(-rank)] of the
    label in that query; merging a query's score map into the running one
    adds the scores per key. *)
Theorem bootstrap_labeller_sums_scores
        (W : wikipedia) (c : lru Counter)
        (topic contextual_anchors : list string) (n_terms : Z) (queries : list string) :
  lru_consistent (rank_wiki_labels_body W) c ->
  bootstrap_topic topic contextual_anchors n_terms = Return queries ->
  (forall q, In q queries -> exists r, search W q = Return r) ->
  (exists counts c',
     bootstrap_labeller W topic contextual_anchors n_terms c = (Return counts, c') /\
     forall L, (Counter_get counts L == total_score W L queries)%Q) /\
  (forall counts r L,
     all_positive counts ->
     (Counter_get (Counter_iadd counts (rank_results r)) L
      == Counter_get counts L + Counter_get (rank_results r) L)%Q).
Proof.
  intros Hc Hq Hs. split.
  - destruct (aggregate_loop W queries [] c Hc (Forall_nil _) Hs)
      as (counts & c' & Hrun & _ & Hget).
    exists counts, c'. unfold bootstrap_labeller. rewrite Hq. split; [exact Hrun|].
    intros L. rewrite Hget. simpl. now rewrite Qplus_0_l.
  - intros counts r L Hp. destruct (rank_results_wf r) as [Hrp Hrn].
    now apply Counter_iadd_get.
Qed.

Lemma bootstrap_labeller_sums_scores_witness :
  (exists counts c',
     bootstrap_labeller sample ["a"; "b"; "c"] [] 2 lru_empty = (Return counts, c') /\
     forall L, (Counter_get counts L == total_score sample L ["a b"; "a c"; "b c"])%Q) /\
  (forall counts r L,
     all_positive counts ->
     (Counter_get (Counter_iadd counts (rank_results r)) L
      == Counter_get counts L + Counter_get (rank_results r) L)%Q).
Proof.
  apply (bootstrap_labeller_sums_scores sample lru_empty ["a"; "b"; "c"] [] 2).
  - apply lru_consistent_empty.
  - reflexivity.
  - intros q _. simpl. destruct (String.eqb q "a b"); eauto.
Defined.

(* ----------------------------------------------------------------- *)
(** ** Counter.most_common *)

Lemma insert_desc_perm (x : string * score) (l : list (string * score)) :
  Permutation (insert_desc x l) (x :: l).
Proof.
  induction l as [|y ys IH]; simpl; [reflexivity|].
  destruct (Qle_bool (snd y) (snd x)); [reflexivity|].
  rewrite IH. apply perm_swap.
Qed.

Lemma sorted_desc_perm (l : list (string * score)) : Permutation (sorted_desc l) l.
Proof.
  induction l as [|x xs IH]; simpl; [reflexivity|].
  rewrite insert_desc_perm. now constructor.
Qed.

Lemma insert_desc_sorted (x : string * score) (l : list (string * score)) :
  StronglySorted score_ge l -> StronglySorted score_ge (insert_desc x l).
Proof.
  induction 1 as [|y ys Hs IH Hy]; simpl; [repeat constructor|].
  destruct (Qle_bool (snd y) (snd x)) eqn:E.
  - apply Qle_bool_iff in E. constructor; [now constructor|].
    constructor; [exact E|].
    eapply Forall_impl; [|exact Hy]. intros z Hz. unfold score_ge in *.
    now apply Qle_trans with (snd y).
  - constructor; [assumption|].
    apply Forall_forall. intros z Hz.
    apply (Permutation_in _ (insert_desc_perm x ys)) in Hz. destruct Hz as [<-|Hz].
    + unfold score_ge. apply Qlt_le_weak. apply Qltb_lt. unfold Qltb. now rewrite E.
    + rewrite Forall_forall in Hy. now apply Hy.
Qed.

Lemma sorted_desc_sorted (l : list (string * score)) : StronglySorted score_ge (sorted_desc l).
Proof.
  induction l as [|x xs IH]; simpl; [constructor | now apply insert_desc_sorted].
Qed.

Lemma insert_desc_stable (s : score) (x : string * score) (l : list (string * score)) :
  filter (has_score s) (insert_desc x l) = filter (has_score s) (x :: l).
Proof.
  induction l as [|y ys IH]; [reflexivity|].
  simpl insert_desc. destruct (Qle_bool (snd y) (snd x)) eqn:E; [reflexivity|].
  change (filter (has_score s) (y :: insert_desc x ys))
    with (if has_score s y then y :: filter (has_score s) (insert_desc x ys)
          else filter (has_score s) (insert_desc x ys)).
  rewrite IH. simpl. destruct (has_score s x) eqn:Ex, (has_score s y) eqn:Ey; try reflexivity.
  exfalso. unfold has_score in *. apply Qeq_bool_iff in Ex, Ey.
  assert (Hle : (snd y <= snd x)%Q) by (rewrite Ex, Ey; apply Qle_refl).
  apply Qle_bool_iff in Hle. congruence.
Qed.

Lemma sorted_desc_stable (s : score) (l : list (string * score)) :
  filter (has_score s) (sorted_desc l) = filter (has_score s) l.
Proof.
  induction l as [|x xs IH]; [reflexivity|].
  simpl sorted_desc. rewrite insert_desc_stable. simpl. now rewrite IH.
Qed.

Lemma Counter_get_In (c : Counter) (k : string) (v : score) :
  NoDup (Counter_keys c) -> In (k, v) c -> Counter_get c k = v.
Proof.
  induction c as [|[k' v'] c IH]; simpl; [tauto|].
  intros Hnd [[= -> ->]|Hin].
  - now rewrite String.eqb_refl.
  - inversion Hnd as [|? ? Hnin Hnd']; subst.
    destruct (String.eqb k' k) eqn:E; [|now apply IH].
    apply String.eqb_eq in E. subst k'. exfalso. apply Hnin.
    change k with (fst (k, v)). now apply in_map.
Qed.

Lemma StronglySorted_map_in {A B} (R : A -> A -> Prop) (R' : B -> B -> Prop)
      (g : A -> B) (l : list A) :
  (forall x y, In x l -> In y l -> R x y -> R' (g x) (g y)) ->
  StronglySorted R l -> StronglySorted R' (map g l).
Proof.
  intros Hg Hs. induction Hs as [|x l Hs IH Hx]; simpl; constructor.
  - apply IH. intros a b Ha Hb. apply Hg; now right.
  - apply Forall_map. apply Forall_forall. intros y Hy.
    apply Hg; [now left | now right |]. rewrite Forall_forall in Hx. now apply Hx.
Qed.

Lemma filter_map_in {A B} (p : A -> bool) (p' : B -> bool) (g : A -> B) (l : list A) :
  (forall x, In x l -> p x = p' (g x)) ->
  map g (filter p l) = filter p' (map g l).
Proof.
  induction l as [|x xs IH]; intros Hp; simpl; [reflexivity|].
  rewrite <- (Hp x) by now left. rewrite <- IH by (intros; apply Hp; now right).
  now destruct (p x).
Qed.

(** C3: for a score map, [select] with no [topn] returns all its keys, as
    many as it has entries, sorted by descending score; with an integer
    [topn] it returns the first [topn] labels of that list; labels of equal
    score come in the order in which the score map holds them, which is the
    order of their first insertion. *)
Theorem select_sorted_descending_stable (counts : Counter) :
  NoDup (Counter_keys counts) ->
  Permutation (select counts None) (Counter_keys counts) /\
  List.length (select counts None) = List.length counts /\
  StronglySorted (fun a b => (Counter_get counts b <= Counter_get counts a)%Q)
                 (select counts None) /\
  (forall s : score,
     filter (fun L => Qeq_bool (Counter_get counts L) s) (select counts None)
     = filter (fun L => Qeq_bool (Counter_get counts L) s) (Counter_keys counts)) /\
  (forall topn : Z,
     select counts (Some topn) = firstn (Z.to_nat topn) (select counts None)).
Proof.
  intros Hnd. unfold select, Counter_keys. simpl most_common.
  assert (Hget : forall kv, In kv (sorted_desc counts) -> Counter_get counts (fst kv) = snd kv).
  { intros [k v] Hin. apply (Permutation_in _ (sorted_desc_perm counts)) in Hin.
    now apply Counter_get_In. }
  split; [|split; [|split; [|split]]].
  - apply Permutation_map, sorted_desc_perm.
  - rewrite length_map. apply Permutation_length, sorted_desc_perm.
  - apply (StronglySorted_map_in score_ge); [|apply sorted_desc_sorted].
    intros x y Hx Hy Hxy. unfold score_ge in Hxy. now rewrite !Hget.
  - intros s. rewrite <- (filter_map_in (has_score s)).
    + rewrite sorted_desc_stable. apply filter_map_in.
      intros [k v] Hin. unfold has_score. simpl. now rewrite (Counter_get_In counts k v).
    + intros kv Hin. unfold has_score. now rewrite Hget.
  - intros topn. destruct (Z.leb_spec topn 0) as [Hle|Hgt].
    + replace (Z.to_nat topn) with 0 by lia. reflexivity.
    + symmetry. apply firstn_map.
Qed.

Lemma select_sorted_descending_stable_witness :
  let counts := [("a", 1%Q); ("b", 2%Q); ("c", 1%Q); ("d", 2%Q)] in
  Permutation (select counts None) (Counter_keys counts) /\
  List.length (select counts None) = List.length counts /\
  StronglySorted (fun a b => (Counter_get counts b <= Counter_get counts a)%Q)
                 (select counts None) /\
  (forall s : score,
     filter (fun L => Qeq_bool (Counter_get counts L) s) (select counts None)
     = filter (fun L => Qeq_bool (Counter_get counts L) s) (Counter_keys counts)) /\
  (forall topn : Z,
     select counts (Some topn) = firstn (Z.to_nat topn) (select counts None)).
Proof.
  apply (select_sorted_descending_stable [("a", 1%Q); ("b", 2%Q); ("c", 1%Q); ("d", 2%Q)]).
  repeat constructor; simpl; intuition discriminate.
Defined.

Example select_ties_in_insertion_order :
  select [("a", 1%Q); ("b", 2%Q); ("c", 1%Q); ("d", 2%Q)] (Some 3%Z) = ["b"; "d"; "a"].
Proof. reflexivity. Qed.

(* ----------------------------------------------------------------- *)
(** ** Loops in the monad *)

Lemma for_each_invariant {St A B} (P : B -> Prop) (body : B -> A -> M St B) (l : list A) :
  (forall acc x s acc' s',
      In x l -> P acc -> body acc x s = (Return acc', s') -> P acc') ->
  forall acc s acc' s',
    P acc -> for_each body l acc s = (Return acc', s') -> P acc'.
Proof.
  induction l as [|x xs IH]; intros Hbody acc s acc' s' HP Hrun.
  - injection Hrun as <- _. exact HP.
  - simpl in Hrun. unfold bind in Hrun.
    destruct (body acc x s) as [[acc1|e] s1] eqn:E; [|discriminate].
    apply (IH (fun a y t a' t' Hy => Hbody a y t a' t' (or_intror Hy)) acc1 s1 acc' s');
      [|exact Hrun].
    apply (Hbody acc x s acc1 s1); [now left | exact HP | exact E].
Qed.

Lemma for_each_returns {St A B} (I : St -> Prop) (P : B -> Prop)
      (body : B -> A -> M St B) (l : list A) :
  (forall acc x s,
      In x l -> I s -> P acc ->
      exists acc' s', body acc x s = (Return acc', s') /\ I s' /\ P acc') ->
  forall acc s,
    I s -> P acc ->
    exists acc' s', for_each body l acc s = (Return acc', s') /\ I s' /\ P acc'.
Proof.
  induction l as [|x xs IH]; intros Hbody acc s HI HP.
  - exists acc, s. repeat split; assumption.
  - destruct (Hbody acc x s (or_introl eq_refl) HI HP) as (acc1 & s1 & E & HI1 & HP1).
    destruct (IH (fun a y t Hy => Hbody a y t (or_intror Hy)) acc1 s1 HI1 HP1)
      as (acc' & s' & Hrun & HI' & HP').
    exists acc', s'. repeat split; try assumption.
    simpl. unfold bind. now rewrite E.
Qed.

(* ----------------------------------------------------------------- *)
(** ** get_wiki_cats *)

Lemma get_wiki_cats_body_caught (W : wikipedia) (title : string) (e : exn) :
  page_categories W title = Raise e -> caught e = true ->
  get_wiki_cats_body W title = Return [].
Proof. intros Hp He. unfold get_wiki_cats_body. now rewrite Hp, He. Qed.

Lemma get_wiki_cats_body_returns (W : wikipedia) (title : string) :
  (forall t e, page_categories W t = Raise e -> caught e = true) ->
  exists cats, get_wiki_cats_body W title = Return cats.
Proof.
  intros Hall. unfold get_wiki_cats_body.
  destruct (page_categories W title) as [cats|e] eqn:E; [eauto|].
  rewrite (Hall _ _ E). eauto.
Qed.

Lemma lru_cache_total {V} (f : string -> outcome V) (k : string) (c : lru V) :
  (exists v, f k = Return v) -> exists v c', lru_cache f k c = (Return v, c').
Proof.
  intros [v Hv]. unfold lru_cache.
  destruct (lru_find k (entries c)) as [v0|]; [eauto|]. rewrite Hv. eauto.
Qed.

(* ----------------------------------------------------------------- *)
(** ** enrich_from_categories *)

Section Enrich.
Variable W : wikipedia.
Variable counts : Counter.
Variable min_score : score.

Let body (cum : Counter) (ts : string * score) : M (lru (list string)) Counter :=
  if Qltb (snd ts) min_score then ret cum
  else (cats <- get_wiki_cats W (fst ts) ;;
        ret (cumulate counts (fst ts) (snd ts) cats cum))%monad.

Lemma cumulate_keys (term : string) (s : score) (cats : list string) : forall cum,
  incl (Counter_keys cum) (Counter_keys counts) ->
  incl (Counter_keys (cumulate counts term s cats cum)) (Counter_keys counts).
Proof.
  unfold cumulate. induction cats as [|cat cats IH]; intros cum Hincl; simpl; [assumption|].
  apply IH. destruct (String.eqb cat term); [assumption|].
  destruct (Counter_contains counts cat) eqn:E; simpl; [|assumption].
  apply Counter_contains_In in E.
  destruct (in_dec string_dec cat (Counter_keys cum)) as [Hin|Hnin].
  - now rewrite Counter_keys_set_present.
  - rewrite Counter_keys_set_absent by assumption.
    apply incl_app; [assumption|]. intros x [<-|[]]. assumption.
Qed.

Lemma Counter_set_non_negative (c : Counter) (k : string) (v : score) :
  non_negative c -> (0 <= v)%Q -> non_negative (Counter_set c k v).
Proof.
  intros Hc Hv. induction Hc as [|[k' v'] c Hv' Hc IH]; simpl.
  - repeat constructor. assumption.
  - destruct (String.eqb k' k); constructor; assumption.
Qed.

Lemma Counter_get_non_negative (c : Counter) (k : string) :
  non_negative c -> (0 <= Counter_get c k)%Q.
Proof.
  induction 1 as [|[k' v'] c Hv _ IH]; simpl.
  - apply Qle_refl.
  - destruct (String.eqb k' k); assumption.
Qed.

Lemma cumulate_non_negative (term : string) (s : score) (cats : list string) : forall cum,
  (0 <= s)%Q -> non_negative cum -> non_negative (cumulate counts term s cats cum).
Proof.
  unfold cumulate. induction cats as [|cat cats IH]; intros cum Hs Hc; simpl; [assumption|].
  apply IH; [assumption|]. destruct (String.eqb cat term); [assumption|].
  destruct (Counter_contains counts cat); simpl; [|assumption].
  apply Counter_set_non_negative; [assumption|].
  apply Qle_trans with (0 + 0)%Q; [apply Qle_refl|].
  apply Qplus_le_compat; [now apply Counter_get_non_negative | assumption].
Qed.

(** What the first loop maintains: the side accumulator only has keys of
    [counts], and it has no negative entry when [counts] has none. *)
Let accumulated (cum : Counter) : Prop :=
  incl (Counter_keys cum) (Counter_keys counts) /\
  (non_negative counts -> non_negative cum).

Lemma enrich_loop_accumulated (c : lru (list string)) (cum : Counter) (c' : lru (list string)) :
  for_each body counts [] c = (Return cum, c') -> accumulated cum.
Proof.
  apply (for_each_invariant accumulated).
  - intros acc [term s] st acc' st' Hin [Hk Hn]. unfold body, ret. simpl.
    destruct (Qltb s min_score).
    + intros [= <- _]. split; assumption.
    + unfold bind. destruct (get_wiki_cats W term st) as [[cats|e] st1]; [|discriminate].
      intros [= <- _]. split.
      * now apply cumulate_keys.
      * intros Hc. apply cumulate_non_negative; [|auto].
        unfold non_negative in Hc. rewrite Forall_forall in Hc. exact (Hc _ Hin).
  - split; [intros x [] | constructor].
Qed.

Lemma boost_keys (category_boost : score) (cum : Counter) :
  incl (Counter_keys cum) (Counter_keys counts) ->
  Counter_keys (boost category_boost cum counts) = Counter_keys counts.
Proof.
  intros Hincl. unfold boost. simpl most_common.
  assert (H : incl (Counter_keys (sorted_desc cum)) (Counter_keys counts)).
  { intros k Hk. apply Hincl. unfold Counter_keys in *.
    eapply Permutation_in; [|exact Hk]. apply Permutation_map, sorted_desc_perm. }
  revert H. generalize (sorted_desc cum). intros items.
  assert (G : forall cs, Counter_keys cs = Counter_keys counts ->
            incl (Counter_keys items) (Counter_keys counts) ->
            Counter_keys
              (fold_left (fun cs tc => Counter_set cs (fst tc)
                            (Counter_get cs (fst tc) + category_boost * snd tc)%Q) items cs)
            = Counter_keys counts).
  { induction items as [|[t v] items IH]; intros cs Hcs Hi; simpl; [assumption|].
    apply IH.
    - rewrite Counter_keys_set_present; [assumption|].
      rewrite Hcs. apply Hi. now left.
    - intros x Hx. apply Hi. now right. }
  now apply G.
Qed.

Lemma boost_raises (category_boost : score) (cum : Counter) (L : string) :
  (0 <= category_boost)%Q -> non_negative cum ->
  (Counter_get counts L <= Counter_get (boost category_boost cum counts) L)%Q.
Proof.
  intros Hb Hc. unfold boost. simpl most_common.
  assert (H : non_negative (sorted_desc cum)).
  { unfold non_negative in *. rewrite Forall_forall in *. intros kv Hkv. apply Hc.
    eapply Permutation_in; [|exact Hkv]. apply sorted_desc_perm. }
  revert H. generalize (sorted_desc cum). intros items. generalize counts as cs.
  induction items as [|[t v] items IH]; intros cs Hi; simpl; [apply Qle_refl|].
  inversion Hi as [|? ? Hv Hi']; subst. simpl in Hv.
  eapply Qle_trans; [|apply IH; assumption].
  destruct (string_dec t L) as [->|Hne].
  - rewrite Counter_get_set_same.
    apply Qle_trans with (Counter_get cs L + 0)%Q; [rewrite Qplus_0_r; apply Qle_refl|].
    apply Qplus_le_r. now apply Qmult_le_0_compat.
  - rewrite Counter_get_set_other by assumption. apply Qle_refl.
Qed.

Lemma enrich_from_categories_unfold (category_boost : score) (c : lru (list string)) :
  enrich_from_categories W counts min_score category_boost c
  = match for_each body counts [] c with
    | (Return cum, c') => (Return (boost category_boost cum counts), c')
    | (Raise e, c') => (Raise e, c')
    end.
Proof. reflexivity. Qed.

Lemma enrich_from_categories_inv (category_boost : score) (c : lru (list string))
      (out : Counter) (c' : lru (list string)) :
  enrich_from_categories W counts min_score category_boost c = (Return out, c') ->
  exists cum, accumulated cum /\ out = boost category_boost cum counts.
Proof.
  rewrite enrich_from_categories_unfold.
  destruct (for_each body counts [] c) as [[cum|e] c1] eqn:E; [|discriminate].
  intros [= <- _]. exists cum. split; [|reflexivity].
  now apply (enrich_loop_accumulated c cum c1).
Qed.

Lemma enrich_from_categories_returns (category_boost : score) (c : lru (list string)) :
  (forall t e, page_categories W t = Raise e -> caught e = true) ->
  exists out c', enrich_from_categories W counts min_score category_boost c = (Return out, c').
Proof.
  intros Hall.
  destruct (for_each_returns (B := Counter) (fun _ => True) (fun _ => True) body counts)
    with (acc := ([] : Counter)) (s := c)
    as (cum & c' & Hrun & _); try exact I.
  - intros acc [term s] st _ _ _. unfold body, ret. simpl. destruct (Qltb s min_score).
    + exists acc, st. repeat split.
    + destruct (lru_cache_total (get_wiki_cats_body W) term st
                  (get_wiki_cats_body_returns W term Hall)) as (cats & st1 & E).
      exists (cumulate counts term s cats acc), st1. repeat split.
      unfold bind. fold (get_wiki_cats W term) in E. now rewrite E.
  - exists (boost category_boost cum counts), c'.
    rewrite enrich_from_categories_unfold. now rewrite Hrun.
Qed.

Lemma enrich_from_categories_all_fail (category_boost : score) (c : lru (list string)) :
  lru_consistent (get_wiki_cats_body W) c ->
  (forall t, exists e, page_categories W t = Raise e /\ caught e = true) ->
  exists c', enrich_from_categories W counts min_score category_boost c = (Return counts, c').
Proof.
  intros Hc Hall.
  destruct (for_each_returns (B := Counter) (lru_consistent (get_wiki_cats_body W))
                             (fun cum => cum = []) body counts)
    with (acc := ([] : Counter)) (s := c)
    as (cum & c' & Hrun & _ & ->); [|assumption|reflexivity|].
  - intros acc [term s] st _ Hst ->. unfold body, ret. simpl. destruct (Qltb s min_score).
    + exists [], st. repeat split; assumption.
    + destruct (Hall term) as (e & Hp & He).
      pose proof (lru_cache_returns (get_wiki_cats_body W) st term Hst) as Hret.
      rewrite (get_wiki_cats_body_caught W term e Hp He) in Hret.
      pose proof (lru_cache_consistent (get_wiki_cats_body W) st term Hst) as Hst1.
      fold (get_wiki_cats W term) in Hret, Hst1.
      exists [], (snd (get_wiki_cats W term st)). repeat split; [|assumption].
      unfold bind. destruct (get_wiki_cats W term st) as [o st1].
      simpl in Hret. subst o. reflexivity.
  - exists c'. rewrite enrich_from_categories_unfold. now rewrite Hrun.
Qed.
End Enrich.

(** C6: when the category booster returns, the score map it returns has
    exactly the keys of the score map it was given, in the same order, for
    every minimum score and every boost factor: no label is introduced and
    none is lost.  Only scores change, and with a non-negative boost factor
    no score of a score map (whose scores are non-negative) is lowered. *)
Theorem enrich_from_categories_keeps_keys
        (W : wikipedia) (c : lru (list string)) (counts : Counter)
        (min_score category_boost : score) (out : Counter) :
  fst (enrich_from_categories W counts min_score category_boost c) = Return out ->
  Counter_keys out = Counter_keys counts /\
  (forall L, Counter_contains out L = true -> Counter_contains counts L = true) /\
  (non_negative counts -> (0 <= category_boost)%Q ->
   forall L, (Counter_get counts L <= Counter_get out L)%Q).
Proof.
  intros Hrun.
  destruct (enrich_from_categories W counts min_score category_boost c) as [o c'] eqn:E.
  simpl in Hrun. subst o.
  destruct (enrich_from_categories_inv W counts min_score category_boost c out c' E)
    as (cum & [Hk Hn] & ->).
  assert (Hkeys : Counter_keys (boost category_boost cum counts) = Counter_keys counts)
    by now apply boost_keys.
  split; [exact Hkeys|]. split.
  - intros L HL. apply Counter_contains_In. rewrite <- Hkeys. now apply Counter_contains_In.
  - intros Hc Hb L. apply boost_raises; auto.
Qed.

Lemma enrich_from_categories_keeps_keys_witness :
  let counts := [("X", 1%Q); ("Y", (1 # 2)%Q)] in
  let out := [("X", 1%Q); ("Y", (5 # 2)%Q)] in
  Counter_keys out = Counter_keys counts /\
  (forall L, Counter_contains out L = true -> Counter_contains counts L = true) /\
  (non_negative counts -> (0 <= default_category_boost)%Q ->
   forall L, (Counter_get counts L <= Counter_get out L)%Q).
Proof.
  apply (enrich_from_categories_keeps_keys
           sample lru_empty [("X", 1%Q); ("Y", (1 # 2)%Q)]
           default_min_score default_category_boost).
  reflexivity.
Defined.

(** C7: when the page lookup for a title fails with one of the errors of the
    collaborator (page not found, ambiguous title, or any other error of its
    taxonomy), the category lookup returns no category and raises nothing.
    So the category booster completes whenever lookups fail only in these
    ways, and when every lookup fails it returns the score map unchanged. *)
Theorem get_wiki_cats_recovers_from_lookup_failure
        (W : wikipedia) (c : lru (list string)) (title : string) (e : exn) :
  lru_consistent (get_wiki_cats_body W) c ->
  page_categories W title = Raise e ->
  e = PageError \/ e = DisambiguationError \/ e = WikipediaException ->
  fst (get_wiki_cats W title c) = Return [] /\
  (forall counts min_score category_boost,
     (forall t e', page_categories W t = Raise e' -> caught e' = true) ->
     exists out c',
       enrich_from_categories W counts min_score category_boost c = (Return out, c')) /\
  (forall counts min_score category_boost,
     (forall t, exists e', page_categories W t = Raise e' /\ caught e' = true) ->
     exists c',
       enrich_from_categories W counts min_score category_boost c = (Return counts, c')).
Proof.
  intros Hc Hp He. split; [|split].
  - unfold get_wiki_cats. rewrite lru_cache_returns by assumption.
    apply (get_wiki_cats_body_caught W title e Hp).
    destruct He as [->|[->| ->]]; reflexivity.
  - intros counts min_score category_boost Hall.
    now apply enrich_from_categories_returns.
  - intros counts min_score category_boost Hall.
    now apply enrich_from_categories_all_fail.
Qed.

Lemma get_wiki_cats_recovers_from_lookup_failure_witness :
  fst (get_wiki_cats pageless "X" lru_empty) = Return [] /\
  (forall counts min_score category_boost,
     (forall t e', page_categories pageless t = Raise e' -> caught e' = true) ->
     exists out c',
       enrich_from_categories pageless counts min_score category_boost lru_empty
       = (Return out, c')) /\
  (forall counts min_score category_boost,
     (forall t, exists e', page_categories pageless t = Raise e' /\ caught e' = true) ->
     exists c',
       enrich_from_categories pageless counts min_score category_boost lru_empty
       = (Return counts, c')).
Proof.
  apply (get_wiki_cats_recovers_from_lookup_failure pageless lru_empty "X" PageError).
  - apply lru_consistent_empty.
  - reflexivity.
  - now left.
Defined.

Example enrich_from_categories_pageless :
  fst (enrich_from_categories pageless [("X", 1%Q); ("Y", (1 # 2)%Q)]
                              default_min_score default_category_boost lru_empty)
  = Return [("X", 1%Q); ("Y", (1 # 2)%Q)].
Proof. reflexivity. Qed.

Example get_wiki_cats_foreign_error_propagates :
  let W := {| search := fun _ => Return []; page_categories := fun _ => Raise ForeignError |} in
  fst (get_wiki_cats W "X" lru_empty) = Raise ForeignError.
Proof. reflexivity. Qed.

(* ----------------------------------------------------------------- *)
(** ** suggest_labels on the scenario of the specification *)

Example suggest_labels_scenario :
  fst (suggest_labels pageless ["a"; "b"] [] (Some 2%Z) 3 false
                      {| rank_cache := lru_empty; cats_cache := lru_empty |})
  = Return ["X"; "Y"].
Proof. reflexivity. Qed.

(* ================================================================= *)
(** * Part III: further properties of the program *)

(* ----------------------------------------------------------------- *)
(** ** More on loops in the monad *)

Lemma for_each_app {St A B} (body : B -> A -> M St B) (l1 l2 : list A) :
  forall (acc : B) (s : St),
    for_each body (l1 ++ l2) acc s
    = match for_each body l1 acc s with
      | (Return acc1, s1) => for_each body l2 acc1 s1
      | (Raise e, s1) => (Raise e, s1)
      end.
Proof.
  induction l1 as [|x xs IH]; intros acc s; simpl; [reflexivity|].
  unfold bind. destruct (body acc x s) as [[acc1|e] s1]; [apply IH | reflexivity].
Qed.

Lemma for_each_state {St A B} (I : St -> Prop) (body : B -> A -> M St B) (l : list A) :
  (forall acc x s, In x l -> I s -> I (snd (body acc x s))) ->
  forall acc s, I s -> I (snd (for_each body l acc s)).
Proof.
  induction l as [|x xs IH]; intros Hbody acc s HI; simpl; [exact HI|].
  unfold bind. pose proof (Hbody acc x s (or_introl eq_refl) HI) as H1.
  destruct (body acc x s) as [[acc1|e] s1]; simpl in H1.
  - apply IH; [|exact H1]. intros a y t Hy. apply Hbody. now right.
  - exact H1.
Qed.

Lemma for_each_fst_agree {St A B} (I : St -> Prop) (body : B -> A -> M St B) (l : list A) :
  (forall acc x s1 s2, I s1 -> I s2 -> fst (body acc x s1) = fst (body acc x s2)) ->
  (forall acc x s, I s -> I (snd (body acc x s))) ->
  forall acc s1 s2,
    I s1 -> I s2 -> fst (for_each body l acc s1) = fst (for_each body l acc s2).
Proof.
  intros Hfst Hsnd. induction l as [|x xs IH]; intros acc s1 s2 H1 H2; simpl; [reflexivity|].
  unfold bind. pose proof (Hfst acc x s1 s2 H1 H2) as Hf.
  pose proof (Hsnd acc x s1 H1) as Hs1. pose proof (Hsnd acc x s2 H2) as Hs2.
  destruct (body acc x s1) as [[a1|e1] t1], (body acc x s2) as [[a2|e2] t2];
    simpl in *; try discriminate.
  - injection Hf as <-. now apply IH.
  - exact Hf.
Qed.

(* ----------------------------------------------------------------- *)
(** ** The stores of lru_cache over any history of calls *)

Section LruHistory.
Context {V : Type}.
Variable f : string -> outcome V.

Lemma lru_calls_consistent (ks : list string) : forall c,
  lru_consistent f c -> lru_consistent f (lru_calls f ks c).
Proof.
  induction ks as [|k ks IH]; intros c Hc; simpl; [exact Hc|].
  apply IH. now apply lru_cache_consistent.
Qed.

Lemma lru_drop_shorter (k : string) (v : V) (es : list (string * V)) :
  lru_find k es = Some v -> S (List.length (lru_drop k es)) <= List.length es.
Proof.
  induction es as [|[k0 v0] es IH]; simpl; [discriminate|].
  destruct (String.eqb k0 k) eqn:E; simpl.
  - intros _. apply le_n_S. apply filter_length_le.
  - intros H. apply le_n_S. now apply IH.
Qed.

Lemma NoDup_firstn_keys (n : nat) (es : list (string * V)) :
  NoDup (map fst es) -> NoDup (map fst (firstn n es)).
Proof.
  revert n. induction es as [|[k v] es IH]; intros [|n] Hnd; simpl; try constructor.
  - inversion Hnd as [|? ? Hnin _]; subst. intros Hin. apply Hnin.
    apply in_map_iff in Hin. destruct Hin as (x & Hx & Hin).
    apply in_map_iff. exists x. split; [assumption|].
    rewrite <- (firstn_skipn n es). apply in_or_app. now left.
  - inversion Hnd; subst. now apply IH.
Qed.

Lemma lru_cache_bounded (k : string) (c : lru V) :
  lru_bounded c -> lru_bounded (snd (lru_cache f k c)).
Proof.
  intros [Hlen Hnd]. unfold lru_cache.
  destruct (lru_find k (entries c)) as [v|] eqn:E; cbn [fst snd entries].
  - destruct (lru_drop_keys f k (entries c)) as (D1 & _ & D3). split.
    + apply lru_drop_shorter in E. simpl. lia.
    + simpl. constructor; [assumption | now apply D3].
  - destruct (f k) as [v|e]; cbn [fst snd entries]; [|now split].
    split; [apply firstn_le_length|].
    apply NoDup_firstn_keys. simpl. constructor; [now apply (lru_find_None f) | assumption].
Qed.

Lemma lru_calls_bounded (ks : list string) : forall c,
  lru_bounded c -> lru_bounded (lru_calls f ks c).
Proof.
  induction ks as [|k ks IH]; intros c Hc; simpl; [exact Hc|].
  apply IH. now apply lru_cache_bounded.
Qed.

Lemma lru_cache_sent (k : string) (c : lru V) :
  sent (snd (lru_cache f k c)) = sent c \/ sent (snd (lru_cache f k c)) = k :: sent c.
Proof.
  unfold lru_cache. destruct (lru_find k (entries c)); [now left|].
  destruct (f k); now right.
Qed.
End LruHistory.

(** X1: after any history of lookups in a fresh process, each of the two
    memoization stores holds at most 128 entries and at most one entry per
    key. *)
Theorem memo_stores_stay_within_maxsize
        (W : wikipedia) (queries titles : list string) :
  let rc := lru_calls (rank_wiki_labels_body W) queries lru_empty in
  let cc := lru_calls (get_wiki_cats_body W) titles lru_empty in
  (List.length (entries rc) <= 128 /\ NoDup (map fst (entries rc))) /\
  (List.length (entries cc) <= 128 /\ NoDup (map fst (entries cc))).
Proof.
  assert (H : forall V, lru_bounded (@lru_empty V)).
  { intros V. split; simpl; [unfold maxsize; lia | constructor]. }
  split; apply lru_calls_bounded; apply H.
Qed.

(** X2: memoization does not change results: after any history of lookups
    in a fresh process, a ranked search returns (or raises) what its
    undecorated body does for that query, and a category lookup what its
    undecorated body does for that title. *)
Theorem memoized_call_agrees_with_body
        (W : wikipedia) (queries titles : list string) (query title : string) :
  fst (rank_wiki_labels W query (lru_calls (rank_wiki_labels_body W) queries lru_empty))
  = rank_wiki_labels_body W query /\
  fst (get_wiki_cats W title (lru_calls (get_wiki_cats_body W) titles lru_empty))
  = get_wiki_cats_body W title.
Proof.
  split.
  - apply lru_cache_returns, lru_calls_consistent, lru_consistent_empty.
  - apply lru_cache_returns, lru_calls_consistent, lru_consistent_empty.
Qed.

(* ----------------------------------------------------------------- *)
(** ** Error and edge behaviour *)

(** X3: a negative bootstrap size is a [ValueError] raised before any search:
    the generator raises it, the aggregator raises it and leaves the search
    store as it was, and [suggest_labels] raises it and leaves the process as
    it was. *)
Theorem negative_bootstrap_size_raises
        (W : wikipedia) (p : process) (topic contextual_anchors : list string)
        (topn : option Z) (n_terms : Z) (boost_with_categories : bool) :
  (n_terms < 0)%Z ->
  bootstrap_topic topic contextual_anchors n_terms = Raise ValueError /\
  bootstrap_labeller W topic contextual_anchors n_terms (rank_cache p)
  = (Raise ValueError, rank_cache p) /\
  suggest_labels W topic contextual_anchors topn n_terms boost_with_categories p
  = (Raise ValueError, p).
Proof.
  intros Hn.
  assert (Hb : bootstrap_topic topic contextual_anchors n_terms = Raise ValueError).
  { unfold bootstrap_topic, combinations.
    destruct (Z.ltb_spec (Z.of_nat (List.length topic)) n_terms); [lia|].
    destruct (Z.ltb_spec n_terms 0); [reflexivity | lia]. }
  assert (Hl : forall c, bootstrap_labeller W topic contextual_anchors n_terms c
                         = (Raise ValueError, c)).
  { intros c. unfold bootstrap_labeller. now rewrite Hb. }
  repeat split; [exact Hb | apply Hl |].
  unfold suggest_labels, bind, with_rank_cache. rewrite Hl. now destruct p.
Qed.

Lemma negative_bootstrap_size_raises_witness :
  let p := {| rank_cache := lru_empty; cats_cache := lru_empty |} in
  bootstrap_topic ["a"; "b"] [] (-1) = Raise ValueError /\
  bootstrap_labeller sample ["a"; "b"] [] (-1) (rank_cache p)
  = (Raise ValueError, rank_cache p) /\
  suggest_labels sample ["a"; "b"] [] (Some 3%Z) (-1) true p = (Raise ValueError, p).
Proof.
  apply (negative_bootstrap_size_raises
           sample {| rank_cache := lru_empty; cats_cache := lru_empty |}
           ["a"; "b"] [] (Some 3%Z) (-1) true).
  lia.
Defined.

(** X4: when every score is below [min_score], the category booster returns
    the score map unchanged and performs no category lookup: the store of
    the lookups, with its record of calls, is as it was. *)
Theorem enrich_from_categories_below_min_score
        (W : wikipedia) (c : lru (list string)) (counts : Counter)
        (min_score category_boost : score) :
  Forall (fun kv => (snd kv < min_score)%Q) counts ->
  enrich_from_categories W counts min_score category_boost c = (Return counts, c).
Proof.
  intros Hlow. rewrite enrich_from_categories_unfold.
  match goal with
  | |- context [for_each ?b counts [] c] =>
      assert (H : forall items, Forall (fun kv => (snd kv < min_score)%Q) items ->
                                for_each b items [] c = (Return [], c))
  end.
  { induction 1 as [|[t s] items Hs _ IH]; [reflexivity|].
    simpl. unfold bind. apply Qltb_lt in Hs. simpl in Hs. rewrite Hs. exact IH. }
  now rewrite (H counts Hlow).
Qed.

Lemma enrich_from_categories_below_min_score_witness :
  enrich_from_categories sample [("X", (1 # 20)%Q); ("Y", (1 # 16)%Q)]
                         default_min_score default_category_boost lru_empty
  = (Return [("X", (1 # 20)%Q); ("Y", (1 # 16)%Q)], lru_empty).
Proof.
  apply (enrich_from_categories_below_min_score
           sample lru_empty [("X", (1 # 20)%Q); ("Y", (1 # 16)%Q)]).
  repeat constructor.
Defined.

(** X5: the category booster looks up categories only for labels of the
    score map whose score is at least [min_score]: every title it sends to
    the page lookup, whether it returns or raises, is such a label. *)
Theorem enrich_from_categories_looks_up_only_scored_labels
        (W : wikipedia) (c : lru (list string)) (counts : Counter)
        (min_score category_boost : score) (title : string) :
  In title (sent (snd (enrich_from_categories W counts min_score category_boost c))) ->
  In title (sent c) \/ exists s, In (title, s) counts /\ (min_score <= s)%Q.
Proof.
  rewrite enrich_from_categories_unfold.
  match goal with
  | |- context [for_each ?b counts [] c] =>
      assert (H : forall t, In t (sent (snd (for_each b counts [] c))) ->
                            In t (sent c) \/ exists s, In (t, s) counts /\ (min_score <= s)%Q)
  end.
  { apply (for_each_state
             (fun st => forall t, In t (sent st) ->
                                  In t (sent c) \/
                                  exists s, In (t, s) counts /\ (min_score <= s)%Q)).
    - intros acc [term s] st Hin Hst t. simpl.
      destruct (Qltb s min_score) eqn:E; [apply Hst|].
      unfold bind, get_wiki_cats.
      destruct (lru_cache_sent (get_wiki_cats_body W) term st) as [Hs|Hs];
        destruct (lru_cache (get_wiki_cats_body W) term st) as [[cats|e] st1];
        simpl in *; rewrite Hs; try apply Hst.
      + intros [<-|Ht]; [|now apply Hst]. right. exists s. split; [assumption|].
        unfold Qltb in E. apply negb_false_iff in E. now apply Qle_bool_iff.
      + intros [<-|Ht]; [|now apply Hst]. right. exists s. split; [assumption|].
        unfold Qltb in E. apply negb_false_iff in E. now apply Qle_bool_iff.
    - intros t Ht. now left. }
  revert H.
  match goal with
  | |- context [for_each ?b counts [] c] =>
      destruct (for_each b counts [] c) as [[cum|e] c']
  end; simpl; intros H; apply H.
Qed.

Lemma enrich_from_categories_looks_up_only_scored_labels_witness :
  In "X" (sent (@lru_empty (list string))) \/
  exists s, In ("X", s) [("X", 1%Q); ("Y", (1 # 16)%Q)] /\ (default_min_score <= s)%Q.
Proof.
  apply (enrich_from_categories_looks_up_only_scored_labels
           sample lru_empty [("X", 1%Q); ("Y", (1 # 16)%Q)]
           default_min_score default_category_boost "X").
  simpl. now left.
Defined.

(* ----------------------------------------------------------------- *)
(** ** The order of the keys of the aggregated score map *)

Lemma existsb_eqb_In (x : string) (l : list string) :
  existsb (String.eqb x) l = true <-> In x l.
Proof.
  rewrite existsb_exists. split.
  - intros (y & Hy & E). apply String.eqb_eq in E. now subst.
  - intros H. exists x. split; [assumption | apply String.eqb_refl].
Qed.

Lemma Counter_keys_set (c : Counter) (k : string) (v : score) :
  Counter_keys (Counter_set c k v) = first_seen_from (Counter_keys c) [k].
Proof.
  unfold first_seen_from. simpl.
  destruct (existsb (String.eqb k) (Counter_keys c)) eqn:E.
  - apply existsb_eqb_In in E. now apply Counter_keys_set_present.
  - apply Counter_keys_set_absent. intros H. apply existsb_eqb_In in H. congruence.
Qed.

Lemma first_seen_from_app (seen l1 l2 : list string) :
  first_seen_from seen (l1 ++ l2) = first_seen_from (first_seen_from seen l1) l2.
Proof. unfold first_seen_from. apply fold_left_app. Qed.

Lemma first_seen_from_incl (l seen : list string) : incl seen (first_seen_from seen l).
Proof.
  revert seen. induction l as [|x xs IH]; intros seen; [apply incl_refl|].
  unfold first_seen_from. simpl. fold (first_seen_from
    (if existsb (String.eqb x) seen then seen else seen ++ [x]) xs).
  intros y Hy. apply IH. destruct (existsb (String.eqb x) seen); [assumption|].
  apply in_or_app. now left.
Qed.

Lemma first_seen_from_twice (r : list string) : forall a seen,
  first_seen_from seen (first_seen_from a r) = first_seen_from (first_seen_from seen a) r.
Proof.
  induction r as [|x xs IH]; intros a seen; [reflexivity|].
  change (first_seen_from a (x :: xs))
    with (first_seen_from (if existsb (String.eqb x) a then a else a ++ [x]) xs).
  rewrite IH.
  change (first_seen_from (first_seen_from seen a) (x :: xs))
    with (first_seen_from
            (if existsb (String.eqb x) (first_seen_from seen a)
             then first_seen_from seen a else first_seen_from seen a ++ [x]) xs).
  f_equal. destruct (existsb (String.eqb x) a) eqn:E.
  - apply existsb_eqb_In in E.
    assert (H : In x (first_seen_from seen a)).
    { clear -E. revert seen. induction a as [|y ys IHa]; intros seen; [destruct E|].
      change (first_seen_from seen (y :: ys))
        with (first_seen_from (if existsb (String.eqb y) seen then seen else seen ++ [y]) ys).
      destruct E as [->|E]; [|now apply IHa].
      apply first_seen_from_incl.
      destruct (existsb (String.eqb x) seen) eqn:Ex.
      - now apply existsb_eqb_In.
      - apply in_or_app. right. now left. }
    apply existsb_eqb_In in H. now rewrite H.
  - rewrite first_seen_from_app. reflexivity.
Qed.

Lemma rank_results_keys (r : list string) :
  Counter_keys (rank_results r) = first_seen r.
Proof.
  unfold rank_results, enumerate, first_seen. generalize 0.
  change (@nil string) with (Counter_keys []). generalize (@nil (string * score)).
  induction r as [|x xs IH]; intros d i; [reflexivity|].
  simpl. rewrite IH, Counter_keys_set. reflexivity.
Qed.

Lemma iadd_loop_keys (other : Counter) : forall c,
  Counter_keys
    (fold_left (fun self kv => Counter_set self (fst kv) (Counter_get self (fst kv) + snd kv)%Q)
               other c)
  = first_seen_from (Counter_keys c) (Counter_keys other).
Proof.
  induction other as [|[k v] other IH]; intros c; [reflexivity|].
  simpl. rewrite IH, Counter_keys_set. reflexivity.
Qed.

Lemma Counter_iadd_keys (c other : Counter) :
  all_positive c -> all_positive other ->
  Counter_keys (Counter_iadd c other) = first_seen_from (Counter_keys c) (Counter_keys other).
Proof.
  intros Hc Ho. unfold Counter_iadd.
  rewrite keep_positive_id by now apply iadd_loop_positive.
  apply iadd_loop_keys.
Qed.

Lemma aggregate_loop_keys (W : wikipedia) (queries : list string) :
  forall (counts : Counter) (c : lru Counter) (counts' : Counter) (c' : lru Counter),
    lru_consistent (rank_wiki_labels_body W) c ->
    all_positive counts ->
    for_each (fun counts topic_ =>
                (ranked_labels <- rank_wiki_labels W topic_ ;;
                 ret (Counter_iadd counts ranked_labels))%monad)
             queries counts c = (Return counts', c') ->
    all_positive counts' /\
    Counter_keys counts'
    = first_seen_from (Counter_keys counts) (List.concat (map (results_of W) queries)).
Proof.
  induction queries as [|q qs IH]; intros counts c counts' c' Hc Hp Hrun.
  - injection Hrun as <- _. split; [assumption | reflexivity].
  - simpl in Hrun. unfold bind at 1 2 in Hrun.
    pose proof (lru_cache_returns (rank_wiki_labels_body W) c q Hc) as Hret.
    pose proof (lru_cache_consistent (rank_wiki_labels_body W) c q Hc) as Hc1.
    fold (rank_wiki_labels W q) in Hret, Hc1.
    destruct (rank_wiki_labels W q c) as [[ranked|e] c1]; [|discriminate].
    simpl in Hret, Hc1. unfold rank_wiki_labels_body in Hret.
    destruct (search W q) as [r|e] eqn:Hs; [|discriminate].
    injection Hret as ->. destruct (rank_results_wf r) as [Hrp _].
    unfold ret in Hrun.
    destruct (IH _ _ _ _ Hc1 (Counter_iadd_positive _ _ Hp Hrp) Hrun) as [Hp' Hk].
    split; [assumption|]. rewrite Hk, Counter_iadd_keys by assumption.
    rewrite rank_results_keys. unfold first_seen. rewrite first_seen_from_twice.
    simpl List.concat. rewrite first_seen_from_app. unfold results_of at 2. rewrite Hs.
    reflexivity.
Qed.

(** X6: when the aggregator returns, the keys of its score map are the
    distinct titles returned by the bootstrap queries, in the order in which
    they are first returned (query after query, each result list in rank
    order), and every score is positive. *)
Theorem bootstrap_labeller_keys_in_first_return_order
        (W : wikipedia) (c : lru Counter)
        (topic contextual_anchors : list string) (n_terms : Z)
        (queries : list string) (counts : Counter) :
  lru_consistent (rank_wiki_labels_body W) c ->
  bootstrap_topic topic contextual_anchors n_terms = Return queries ->
  fst (bootstrap_labeller W topic contextual_anchors n_terms c) = Return counts ->
  Counter_keys counts = first_seen (List.concat (map (results_of W) queries)) /\
  all_positive counts.
Proof.
  intros Hc Hq Hrun. unfold bootstrap_labeller in Hrun. rewrite Hq in Hrun.
  match type of Hrun with
  | fst ?run = _ => destruct run as [o c'] eqn:E
  end.
  simpl in Hrun. subst o.
  destruct (aggregate_loop_keys W queries [] c counts c' Hc (Forall_nil _) E) as [Hp Hk].
  split; assumption.
Qed.

Lemma bootstrap_labeller_keys_in_first_return_order_witness :
  Counter_keys [("X", (1 # 4)%Q); ("Y", (5 # 2)%Q); ("Z", (4 # 4)%Q)]
  = first_seen (List.concat (map (results_of sample) ["a b"; "a c"; "b c"])) /\
  all_positive [("X", (1 # 4)%Q); ("Y", (5 # 2)%Q); ("Z", (4 # 4)%Q)].
Proof.
  apply (bootstrap_labeller_keys_in_first_return_order
           sample lru_empty ["a"; "b"; "c"] [] 2).
  - apply lru_consistent_empty.
  - reflexivity.
  - reflexivity.
Defined.

(* ----------------------------------------------------------------- *)
(** ** Failures of the search *)

Lemma aggregate_prefix (W : wikipedia) (queries : list string) :
  forall (counts : Counter) (c : lru Counter),
    lru_consistent (rank_wiki_labels_body W) c ->
    (forall q, In q queries -> exists r, search W q = Return r) ->
    exists counts' c',
      for_each (fun counts topic_ =>
                  (ranked_labels <- rank_wiki_labels W topic_ ;;
                   ret (Counter_iadd counts ranked_labels))%monad)
               queries counts c = (Return counts', c') /\
      lru_consistent (rank_wiki_labels_body W) c'.
Proof.
  intros counts c Hc Hs.
  destruct (for_each_returns (B := Counter) (lru_consistent (rank_wiki_labels_body W))
                             (fun _ => True)
                             (fun counts topic_ =>
                                (ranked_labels <- rank_wiki_labels W topic_ ;;
                                 ret (Counter_iadd counts ranked_labels))%monad)
                             queries) with (acc := counts) (s := c)
    as (counts' & c' & Hrun & Hc' & _); [|assumption|exact I|eauto].
  intros acc q st Hin Hst _. destruct (Hs q Hin) as [r Hr].
  pose proof (rank_wiki_labels_returns W st q r Hst Hr) as Hret.
  pose proof (lru_cache_consistent (rank_wiki_labels_body W) st q Hst) as Hst1.
  fold (rank_wiki_labels W q) in Hst1.
  exists (Counter_iadd acc (rank_results r)), (snd (rank_wiki_labels W q st)).
  repeat split; [|assumption].
  unfold bind, ret. destruct (rank_wiki_labels W q st) as [o st1].
  simpl in Hret. now subst o.
Qed.

(** X7: a failure of the search is not handled anywhere: when the search
    raises for a bootstrap query, the earlier queries having been answered,
    the aggregator raises the same exception, and so does [suggest_labels],
    with or without the category boost. *)
Theorem search_failure_propagates
        (W : wikipedia) (p : process)
        (topic contextual_anchors : list string) (topn : option Z) (n_terms : Z)
        (boost_with_categories : bool)
        (before : list string) (query : string) (after : list string) (e : exn) :
  lru_consistent (rank_wiki_labels_body W) (rank_cache p) ->
  bootstrap_topic topic contextual_anchors n_terms = Return (before ++ query :: after) ->
  (forall q, In q before -> exists r, search W q = Return r) ->
  search W query = Raise e ->
  fst (bootstrap_labeller W topic contextual_anchors n_terms (rank_cache p)) = Raise e /\
  fst (suggest_labels W topic contextual_anchors topn n_terms boost_with_categories p)
  = Raise e.
Proof.
  intros Hc Hq Hbefore Hfail.
  assert (Hl : fst (bootstrap_labeller W topic contextual_anchors n_terms (rank_cache p))
               = Raise e).
  { unfold bootstrap_labeller. rewrite Hq, for_each_app.
    destruct (aggregate_prefix W before [] (rank_cache p) Hc Hbefore)
      as (counts1 & c1 & Hrun & Hc1).
    rewrite Hrun. simpl. unfold bind at 1 2.
    pose proof (lru_cache_returns (rank_wiki_labels_body W) c1 query Hc1) as Hret.
    fold (rank_wiki_labels W query) in Hret.
    unfold rank_wiki_labels_body in Hret. rewrite Hfail in Hret.
    destruct (rank_wiki_labels W query c1) as [o c2]. simpl in Hret. now subst o. }
  split; [exact Hl|].
  unfold suggest_labels, bind, with_rank_cache.
  destruct (bootstrap_labeller W topic contextual_anchors n_terms (rank_cache p)) as [o c1].
  simpl in Hl. now subst o.
Qed.

Lemma search_failure_propagates_witness :
  let p := {| rank_cache := lru_empty; cats_cache := lru_empty |} in
  fst (bootstrap_labeller flaky ["a"; "b"; "c"] [] 2 (rank_cache p))
  = Raise WikipediaException /\
  fst (suggest_labels flaky ["a"; "b"; "c"] [] (Some 3%Z) 2 true p)
  = Raise WikipediaException.
Proof.
  apply (search_failure_propagates
           flaky {| rank_cache := lru_empty; cats_cache := lru_empty |}
           ["a"; "b"; "c"] [] (Some 3%Z) 2 true ["a b"] "a c" ["b c"] WikipediaException).
  - apply lru_consistent_empty.
  - reflexivity.
  - intros q [<-|[]]. now exists ["X"].
  - reflexivity.
Defined.

(** X8: the two memoized functions treat failures differently.  A search
    that raises is not memoized: the store keeps its entries and the query
    is sent to the search at every lookup.  A page lookup that fails with a
    caught error is memoized as "no categories": the next lookup of the
    title returns the empty list without a new page lookup. *)
Theorem failed_search_retried_failed_page_lookup_memoized
        (W : wikipedia) (rc : lru Counter) (cc : lru (list string))
        (query title : string) (e e' : exn) :
  lru_consistent (rank_wiki_labels_body W) rc ->
  lru_consistent (get_wiki_cats_body W) cc ->
  search W query = Raise e ->
  page_categories W title = Raise e' ->
  caught e' = true ->
  let rc1 := snd (rank_wiki_labels W query rc) in
  let cc1 := snd (get_wiki_cats W title cc) in
  (entries rc1 = entries rc /\
   sent rc1 = query :: sent rc /\
   rank_wiki_labels W query rc1 = (Raise e, {| entries := entries rc;
                                               sent := query :: query :: sent rc |})) /\
  (fst (get_wiki_cats W title cc1) = Return [] /\
   sent (snd (get_wiki_cats W title cc1)) = sent cc1).
Proof.
  intros Hrc Hcc Hs Hp He rc1 cc1. split.
  - assert (Hbody : rank_wiki_labels_body W query = Raise e).
    { unfold rank_wiki_labels_body. now rewrite Hs. }
    assert (Hmiss : lru_find query (entries rc) = None).
    { destruct (lru_find query (entries rc)) as [v|] eqn:E; [|reflexivity].
      apply Hrc in E. congruence. }
    subst rc1. unfold rank_wiki_labels, lru_cache. rewrite Hmiss, Hbody. simpl.
    rewrite ?Hmiss, ?Hbody. repeat split.
  - subst cc1. apply (lru_cache_hit_within_capacity (get_wiki_cats_body W) cc title [] []).
    + unfold get_wiki_cats. rewrite lru_cache_returns by assumption.
      now apply (get_wiki_cats_body_caught W title e').
    + unfold distinct_others, maxsize. simpl. lia.
Qed.

Lemma failed_search_retried_failed_page_lookup_memoized_witness :
  let rc1 := snd (rank_wiki_labels flaky "a c" lru_empty) in
  let cc1 := snd (get_wiki_cats flaky "X" lru_empty) in
  (entries rc1 = entries (@lru_empty Counter) /\
   sent rc1 = "a c" :: sent (@lru_empty Counter) /\
   rank_wiki_labels flaky "a c" rc1
   = (Raise WikipediaException,
      {| entries := entries (@lru_empty Counter);
         sent := "a c" :: "a c" :: sent (@lru_empty Counter) |})) /\
  (fst (get_wiki_cats flaky "X" cc1) = Return [] /\
   sent (snd (get_wiki_cats flaky "X" cc1)) = sent cc1).
Proof.
  apply (failed_search_retried_failed_page_lookup_memoized
           flaky lru_empty lru_empty "a c" "X" WikipediaException PageError).
  - apply lru_consistent_empty.
  - apply lru_consistent_empty.
  - reflexivity.
  - reflexivity.
  - reflexivity.
Defined.

(* ----------------------------------------------------------------- *)
(** ** The number of bootstrap queries *)

Lemma subsequences_too_long {A} (pool : list A) : forall r,
  List.length pool < r -> subsequences pool r = [].
Proof.
  induction pool as [|x xs IH]; intros [|r] Hr; simpl in *; try lia; [reflexivity|].
  rewrite (IH r), (IH (S r)) by lia. reflexivity.
Qed.

Lemma subsequences_whole {A} (pool : list A) :
  subsequences pool (List.length pool) = [pool].
Proof.
  induction pool as [|x xs IH]; [reflexivity|].
  simpl. rewrite IH, subsequences_too_long by lia. reflexivity.
Qed.

Lemma subsequences_count {A} (pool : list A) : forall r,
  r <= List.length pool ->
  List.length (subsequences pool r) * (fact r * fact (List.length pool - r))
  = fact (List.length pool).
Proof.
  induction pool as [|x xs IH]; intros [|r] Hr; simpl List.length in *; try lia.
  - reflexivity.
  - simpl subsequences. simpl List.length. rewrite Nat.sub_0_r. change (fact 0) with 1. lia.
  - simpl subsequences. rewrite length_app, length_map.
    replace (S (List.length xs) - S r) with (List.length xs - r) by lia.
    pose proof (IH r ltac:(lia)) as HA.
    change (fact (S r)) with (S r * fact r).
    change (fact (S (List.length xs))) with (S (List.length xs) * fact (List.length xs)).
    destruct (Nat.eq_dec r (List.length xs)) as [->|Hne].
    + rewrite (subsequences_too_long xs (S (List.length xs))) by lia.
      rewrite Nat.sub_diag in *. change (fact 0) with 1 in *. simpl List.length. nia.
    + pose proof (IH (S r) ltac:(lia)) as HB.
      change (fact (S r)) with (S r * fact r) in HB.
      replace (List.length xs - r) with (S (List.length xs - S r)) in * by lia.
      change (fact (S (List.length xs - S r)))
        with (S (List.length xs - S r) * fact (List.length xs - S r)) in *.
      set (a := fact r) in *. set (b := fact (List.length xs - S r)) in *.
      set (m := List.length xs - S r) in *. set (F := fact (List.length xs)) in *.
      set (LA := List.length (subsequences xs r)) in *.
      set (LB := List.length (subsequences xs (S r))) in *.
      assert (Hn : S (List.length xs) = S r + S m) by (subst m; lia).
      rewrite Hn.
      transitivity (S r * (LA * (a * (S m * b))) + S m * (LB * (S r * a * b))); [ring|].
      rewrite HA, HB. ring.
Qed.

(** X9: for a non-negative bootstrap size, the number of queries, hence of
    lookups of the ranked search per call, is the binomial coefficient of
    the length of the topic and the clamped size [k]: it times [k!] times
    [(len - k)!] is [len!]. *)
Theorem bootstrap_topic_number_of_queries
        (topic contextual_anchors : list string) (n_terms : Z) (queries : list string) :
  (0 <= n_terms)%Z ->
  bootstrap_topic topic contextual_anchors n_terms = Return queries ->
  let k := Z.to_nat (Z.min n_terms (Z.of_nat (List.length topic))) in
  List.length queries * (fact k * fact (List.length topic - k)) = fact (List.length topic).
Proof.
  intros Hn Hq k. rewrite bootstrap_topic_unfold in Hq by assumption.
  injection Hq as <-. rewrite length_map. apply subsequences_count. subst k. lia.
Qed.

Lemma bootstrap_topic_number_of_queries_witness :
  let k := Z.to_nat (Z.min 2 (Z.of_nat (List.length ["a"; "b"; "c"; "d"]))) in
  List.length ["a b"; "a c"; "a d"; "b c"; "b d"; "c d"]
  * (fact k * fact (List.length ["a"; "b"; "c"; "d"] - k))
  = fact (List.length ["a"; "b"; "c"; "d"]).
Proof.
  apply (bootstrap_topic_number_of_queries ["a"; "b"; "c"; "d"] [] 2).
  - lia.
  - reflexivity.
Defined.

(* ----------------------------------------------------------------- *)
(** ** What suggest_labels suggests *)

Lemma first_seen_from_distinct (r : list string) : forall seen,
  NoDup (seen ++ r) -> first_seen_from seen r = seen ++ r.
Proof.
  induction r as [|x xs IH]; intros seen Hnd; [now rewrite app_nil_r|].
  change (first_seen_from seen (x :: xs))
    with (first_seen_from (if existsb (String.eqb x) seen then seen else seen ++ [x]) xs).
  destruct (existsb (String.eqb x) seen) eqn:E.
  - apply existsb_eqb_In in E. apply NoDup_remove_2 in Hnd.
    exfalso. apply Hnd. apply in_or_app. now left.
  - rewrite IH; rewrite <- app_assoc; [reflexivity | exact Hnd].
Qed.

Lemma first_seen_from_In (l : list string) : forall seen L,
  In L (first_seen_from seen l) <-> In L seen \/ In L l.
Proof.
  induction l as [|x xs IH]; intros seen L; [simpl; tauto|].
  change (first_seen_from seen (x :: xs))
    with (first_seen_from (if existsb (String.eqb x) seen then seen else seen ++ [x]) xs).
  rewrite IH. destruct (existsb (String.eqb x) seen) eqn:E.
  - apply existsb_eqb_In in E. simpl. split; [tauto|].
    intros [H|[<-|H]]; tauto.
  - rewrite in_app_iff. simpl. tauto.
Qed.

Lemma first_seen_from_NoDup (l : list string) : forall seen,
  NoDup seen -> NoDup (first_seen_from seen l).
Proof.
  induction l as [|x xs IH]; intros seen Hnd; [exact Hnd|].
  change (first_seen_from seen (x :: xs))
    with (first_seen_from (if existsb (String.eqb x) seen then seen else seen ++ [x]) xs).
  apply IH. destruct (existsb (String.eqb x) seen) eqn:E; [assumption|].
  apply NoDup_app; [assumption | repeat constructor; intros [] |].
  intros y Hy [<-|[]]. apply existsb_eqb_In in Hy. congruence.
Qed.

Lemma Counter_items (c : Counter) :
  NoDup (Counter_keys c) -> c = map (fun k => (k, Counter_get c k)) (Counter_keys c).
Proof.
  induction c as [|[k v] c IH]; intros Hnd; [reflexivity|].
  inversion Hnd as [|? ? Hnin Hnd']; subst. simpl. rewrite String.eqb_refl. f_equal.
  rewrite IH at 1 by assumption. apply map_ext_in. intros k' Hk'.
  destruct (String.eqb k k') eqn:E; [|reflexivity].
  apply String.eqb_eq in E. subst k'. contradiction.
Qed.

Lemma sorted_desc_id (l : list (string * score)) :
  StronglySorted score_ge l -> sorted_desc l = l.
Proof.
  induction 1 as [|x l Hs IH Hx]; [reflexivity|].
  simpl. rewrite IH. destruct l as [|y ys]; [reflexivity|].
  simpl. inversion Hx as [|? ? Hy _]; subst. unfold score_ge in Hy.
  apply Qle_bool_iff in Hy. now rewrite Hy.
Qed.

Lemma StronglySorted_nth {A} (R : A -> A -> Prop) (l : list A) :
  (forall i j x y, i < j -> nth_error l i = Some x -> nth_error l j = Some y -> R x y) ->
  StronglySorted R l.
Proof.
  induction l as [|x l IH]; intros H; constructor.
  - apply IH. intros i j a b Hij Ha Hb. apply (H (S i) (S j)); [lia | assumption..].
  - apply Forall_forall. intros y Hy. apply In_nth_error in Hy. destruct Hy as [j Hj].
    apply (H 0 (S j)); [lia | reflexivity | assumption].
Qed.

Lemma pow2_neg_le (i j : nat) : i <= j -> (pow2_neg j <= pow2_neg i)%Q.
Proof.
  intros Hij. unfold pow2_neg. apply Qpower_le_compat_l; [lia | discriminate].
Qed.

Lemma last_index_distinct (r : list string) (i : nat) (t : string) :
  NoDup r -> nth_error r i = Some t -> last_index t r = Some i.
Proof.
  intros Hnd Hi. apply last_index_Some. split; [assumption|].
  intros k Hk. rewrite NoDup_nth_error in Hnd.
  assert (i = k); [|lia].
  apply Hnd; [|congruence]. apply nth_error_Some. congruence.
Qed.

Lemma single_query_select (r : list string) (topn : option Z) :
  NoDup r ->
  select (Counter_iadd [] (rank_results r)) topn
  = match topn with None => r | Some k => firstn (Z.to_nat k) r end.
Proof.
  intros Hnd. destruct (rank_results_wf r) as [Hrp Hrn].
  set (counts := Counter_iadd [] (rank_results r)).
  assert (Hkeys : Counter_keys counts = r).
  { subst counts. rewrite Counter_iadd_keys by (assumption || constructor).
    rewrite rank_results_keys. unfold first_seen. rewrite first_seen_from_twice.
    now apply (first_seen_from_distinct r []). }
  assert (Hget : forall t, (Counter_get counts t == Counter_get (rank_results r) t)%Q).
  { intros t. subst counts. rewrite Counter_iadd_get by (assumption || constructor).
    simpl. apply Qplus_0_l. }
  assert (Hs : StronglySorted score_ge
                 (map (fun k => (k, Counter_get counts k)) (Counter_keys counts))).
  { apply (StronglySorted_map_in (fun a b => (Counter_get counts b <= Counter_get counts a)%Q)).
    - intros x y _ _ H. exact H.
    - rewrite Hkeys. apply StronglySorted_nth. intros i j x y Hij Hx Hy.
      rewrite !Hget, !rank_results_get.
      rewrite (last_index_distinct r i x), (last_index_distinct r j y) by assumption.
      apply pow2_neg_le. lia. }
  rewrite <- Counter_items in Hs by (rewrite Hkeys; assumption).
  unfold select, most_common. rewrite (sorted_desc_id counts Hs).
  fold (Counter_keys counts). destruct topn as [k|]; [|exact Hkeys].
  destruct (Z.leb_spec k 0) as [Hle|Hgt].
  - replace (Z.to_nat k) with 0 by lia. reflexivity.
  - rewrite <- Hkeys. unfold Counter_keys. symmetry. apply firstn_map.
Qed.

(** X10: when the bootstrap size is at least the length of the topic there
    is a single query, all terms then all anchors; if the search answers it
    with distinct titles, [suggest_labels] without category boost returns
    these titles in the order of the search: all of them for no [topn], the
    first [topn] otherwise. *)
Theorem suggest_labels_single_query_keeps_search_order
        (W : wikipedia) (p : process) (topic contextual_anchors : list string)
        (topn : option Z) (bootstrap_size : Z) (results : list string) :
  lru_consistent (rank_wiki_labels_body W) (rank_cache p) ->
  (Z.of_nat (List.length topic) <= bootstrap_size)%Z ->
  search W (join " " (topic ++ contextual_anchors)) = Return results ->
  NoDup results ->
  fst (suggest_labels W topic contextual_anchors topn bootstrap_size false p)
  = Return (match topn with
            | None => results
            | Some k => firstn (Z.to_nat k) results
            end).
Proof.
  intros Hc Hn Hs Hnd.
  assert (Hq : bootstrap_topic topic contextual_anchors bootstrap_size
               = Return [join " " (topic ++ contextual_anchors)]).
  { rewrite bootstrap_topic_unfold by lia. rewrite Z.min_r, Nat2Z.id by lia.
    now rewrite subsequences_whole. }
  pose proof (rank_wiki_labels_returns W (rank_cache p) _ results Hc Hs) as Hret.
  unfold suggest_labels, bind, with_rank_cache, bootstrap_labeller. rewrite Hq.
  simpl for_each. unfold bind, ret.
  destruct (rank_wiki_labels W (join " " (topic ++ contextual_anchors)) (rank_cache p))
    as [o c1].
  simpl in Hret. subst o. simpl. f_equal. now apply single_query_select.
Qed.

Lemma suggest_labels_single_query_keeps_search_order_witness :
  fst (suggest_labels pageless ["a"; "b"] [] (Some 1%Z) 3 false
                      {| rank_cache := lru_empty; cats_cache := lru_empty |})
  = Return (firstn (Z.to_nat 1) ["X"; "Y"]).
Proof.
  apply (suggest_labels_single_query_keeps_search_order
           pageless {| rank_cache := lru_empty; cats_cache := lru_empty |}
           ["a"; "b"] [] (Some 1%Z) 3 ["X"; "Y"]).
  - apply lru_consistent_empty.
  - simpl. lia.
  - reflexivity.
  - repeat constructor; simpl; intuition discriminate.
Defined.

Lemma select_of_keys (cs : Counter) (topn : option Z) :
  NoDup (Counter_keys cs) ->
  NoDup (select cs topn) /\
  incl (select cs topn) (Counter_keys cs) /\
  (forall k, topn = Some k -> List.length (select cs topn) <= Z.to_nat k) /\
  (topn = None -> Permutation (select cs topn) (Counter_keys cs)).
Proof.
  intros Hnd.
  assert (Hperm : Permutation (map fst (sorted_desc cs)) (Counter_keys cs))
    by apply Permutation_map, sorted_desc_perm.
  assert (Hnd' : NoDup (map fst (sorted_desc cs))).
  { eapply Permutation_NoDup; [symmetry; exact Hperm | exact Hnd]. }
  assert (Hfirst : forall m, NoDup (map fst (firstn m (sorted_desc cs))) /\
                             incl (map fst (firstn m (sorted_desc cs))) (Counter_keys cs)).
  { intros m. rewrite <- firstn_map. split.
    - rewrite <- (firstn_skipn m (map fst (sorted_desc cs))) in Hnd'.
      now apply NoDup_app_remove_r in Hnd'.
    - intros x Hx. apply (Permutation_in _ Hperm).
      rewrite <- (firstn_skipn m (map fst (sorted_desc cs))). apply in_or_app. now left. }
  unfold select. destruct topn as [k|]; simpl most_common.
  - destruct (Z.leb_spec k 0) as [Hle|Hgt].
    + repeat split; [constructor | intros x [] | | discriminate].
      intros k' _. simpl. lia.
    + destruct (Hfirst (Z.to_nat k)) as [H1 H2]. repeat split; try assumption.
      * intros k' [= <-]. rewrite length_map. apply firstn_le_length.
      * discriminate.
  - split; [assumption|]. split; [|split].
    + intros x Hx. now apply (Permutation_in _ Hperm).
    + discriminate.
    + intros _. exact Hperm.
Qed.

(** X11: whatever [suggest_labels] returns, with or without category boost,
    is a list of distinct titles that the search returned for some bootstrap
    query, of at most [topn] labels; with no [topn] it is a permutation of
    all the distinct returned titles. *)
Theorem suggest_labels_suggests_returned_titles
        (W : wikipedia) (p : process) (topic contextual_anchors : list string)
        (topn : option Z) (bootstrap_size : Z) (boost_with_categories : bool)
        (queries labels : list string) :
  lru_consistent (rank_wiki_labels_body W) (rank_cache p) ->
  bootstrap_topic topic contextual_anchors bootstrap_size = Return queries ->
  fst (suggest_labels W topic contextual_anchors topn bootstrap_size
                      boost_with_categories p) = Return labels ->
  NoDup labels /\
  (forall L, In L labels -> exists q, In q queries /\ In L (results_of W q)) /\
  (forall k, topn = Some k -> List.length labels <= Z.to_nat k) /\
  (topn = None ->
   Permutation labels (first_seen (List.concat (map (results_of W) queries)))).
Proof.
  intros Hc Hq Hrun.
  assert (Hsel : exists cs,
             labels = select cs topn /\
             Counter_keys cs = first_seen (List.concat (map (results_of W) queries))).
  { unfold suggest_labels, bind, with_rank_cache in Hrun.
    destruct (bootstrap_labeller W topic contextual_anchors bootstrap_size (rank_cache p))
      as [[counts|e] c1] eqn:E1; [|discriminate].
    unfold bootstrap_labeller in E1. rewrite Hq in E1.
    destruct (aggregate_loop_keys W queries [] (rank_cache p) counts c1 Hc (Forall_nil _) E1)
      as [_ Hk].
    destruct boost_with_categories.
    - unfold with_cats_cache in Hrun. cbn [cats_cache] in Hrun.
      destruct (enrich_from_categories W counts default_min_score default_category_boost
                                       (cats_cache p)) as [[counts2|e] c2] eqn:E2;
        [|discriminate].
      injection Hrun as <-. exists counts2. split; [reflexivity|].
      destruct (enrich_from_categories_inv W counts _ _ _ _ _ E2) as (cum & [Hi _] & ->).
      rewrite boost_keys by assumption. exact Hk.
    - injection Hrun as <-. exists counts. split; [reflexivity | exact Hk]. }
  destruct Hsel as (cs & -> & Hk).
  assert (Hnd : NoDup (Counter_keys cs)).
  { rewrite Hk. apply first_seen_from_NoDup. constructor. }
  destruct (select_of_keys cs topn Hnd) as (H1 & H2 & H3 & H4).
  repeat split; [assumption | | assumption | now rewrite <- Hk].
  intros L HL. apply H2 in HL. rewrite Hk in HL.
  apply first_seen_from_In in HL. destruct HL as [[]|HL].
  apply in_concat in HL. destruct HL as (r & Hr & HL).
  apply in_map_iff in Hr. destruct Hr as (q & <- & Hq'). eauto.
Qed.

Lemma suggest_labels_suggests_returned_titles_witness :
  NoDup ["Y"; "Z"] /\
  (forall L, In L ["Y"; "Z"] ->
             exists q, In q ["a b"; "a c"; "b c"] /\ In L (results_of sample q)) /\
  (forall k, Some 2%Z = Some k -> List.length ["Y"; "Z"] <= Z.to_nat k) /\
  (Some 2%Z = None ->
   Permutation ["Y"; "Z"]
               (first_seen (List.concat (map (results_of sample) ["a b"; "a c"; "b c"])))).
Proof.
  apply (suggest_labels_suggests_returned_titles
           sample {| rank_cache := lru_empty; cats_cache := lru_empty |}
           ["a"; "b"; "c"] [] (Some 2%Z) 2 true ["a b"; "a c"; "b c"] ["Y"; "Z"]).
  - apply lru_consistent_empty.
  - reflexivity.
  - reflexivity.
Defined.

(* ----------------------------------------------------------------- *)
(** ** The result does not depend on what is memoized *)

Section Memoless.
Variable W : wikipedia.

Let rank_ok := lru_consistent (rank_wiki_labels_body W).
Let cats_ok := lru_consistent (get_wiki_cats_body W).

Lemma bootstrap_labeller_memoless (topic anchors : list string) (n : Z)
      (c1 c2 : lru Counter) :
  rank_ok c1 -> rank_ok c2 ->
  fst (bootstrap_labeller W topic anchors n c1) = fst (bootstrap_labeller W topic anchors n c2)
  /\ rank_ok (snd (bootstrap_labeller W topic anchors n c1)).
Proof.
  intros H1 H2. unfold bootstrap_labeller.
  destruct (bootstrap_topic topic anchors n) as [queries|e]; [|split; [reflexivity | exact H1]].
  assert (Hsnd : forall acc q s, rank_ok s ->
            rank_ok (snd ((ranked_labels <- rank_wiki_labels W q ;;
                           ret (Counter_iadd acc ranked_labels))%monad s))).
  { intros acc q s Hs. unfold bind, ret.
    pose proof (lru_cache_consistent (rank_wiki_labels_body W) s q Hs) as Hs1.
    fold (rank_wiki_labels W q) in Hs1.
    now destruct (rank_wiki_labels W q s) as [[r|e] s1]. }
  split.
  - apply (for_each_fst_agree rank_ok); try assumption.
    intros acc q s1 s2 Hs1 Hs2. unfold bind, ret.
    pose proof (lru_cache_returns (rank_wiki_labels_body W) s1 q Hs1) as R1.
    pose proof (lru_cache_returns (rank_wiki_labels_body W) s2 q Hs2) as R2.
    fold (rank_wiki_labels W q) in R1, R2.
    destruct (rank_wiki_labels W q s1) as [[r1|e1] t1],
             (rank_wiki_labels W q s2) as [[r2|e2] t2]; simpl in *; congruence.
  - apply (for_each_state rank_ok); [|assumption].
    intros acc q s _. apply Hsnd.
Qed.

Lemma enrich_from_categories_memoless (counts : Counter) (min_score category_boost : score)
      (c1 c2 : lru (list string)) :
  cats_ok c1 -> cats_ok c2 ->
  fst (enrich_from_categories W counts min_score category_boost c1)
  = fst (enrich_from_categories W counts min_score category_boost c2)
  /\ cats_ok (snd (enrich_from_categories W counts min_score category_boost c1)).
Proof.
  intros H1 H2. rewrite !enrich_from_categories_unfold.
  match goal with
  | |- context [for_each ?b counts [] c1] => set (body := b)
  end.
  assert (Hsnd : forall acc ts s, cats_ok s -> cats_ok (snd (body acc ts s))).
  { intros acc [term sc] s Hs. subst body. simpl.
    destruct (Qltb sc min_score); [exact Hs|]. unfold bind, ret.
    pose proof (lru_cache_consistent (get_wiki_cats_body W) s term Hs) as Hs1.
    fold (get_wiki_cats W term) in Hs1.
    now destruct (get_wiki_cats W term s) as [[r|e] s1]. }
  assert (Hfst : fst (for_each body counts [] c1) = fst (for_each body counts [] c2)).
  { apply (for_each_fst_agree cats_ok); try assumption.
    intros acc [term sc] s1 s2 Hs1 Hs2. subst body. simpl.
    destruct (Qltb sc min_score); [reflexivity|]. unfold bind, ret.
    pose proof (lru_cache_returns (get_wiki_cats_body W) s1 term Hs1) as R1.
    pose proof (lru_cache_returns (get_wiki_cats_body W) s2 term Hs2) as R2.
    fold (get_wiki_cats W term) in R1, R2.
    destruct (get_wiki_cats W term s1) as [[r1|e1] t1],
             (get_wiki_cats W term s2) as [[r2|e2] t2]; simpl in *; congruence. }
  assert (Hst : cats_ok (snd (for_each body counts [] c1))).
  { apply (for_each_state cats_ok); [|assumption]. intros acc ts s _. apply Hsnd. }
  destruct (for_each body counts [] c1) as [[cum1|e1] t1],
           (for_each body counts [] c2) as [[cum2|e2] t2]; simpl in *;
    try discriminate; split; try assumption; congruence.
Qed.

Lemma suggest_labels_memoless (topic anchors : list string) (topn : option Z) (n : Z)
      (b : bool) (p1 p2 : process) :
  process_consistent W p1 -> process_consistent W p2 ->
  fst (suggest_labels W topic anchors topn n b p1)
  = fst (suggest_labels W topic anchors topn n b p2)
  /\ process_consistent W (snd (suggest_labels W topic anchors topn n b p1)).
Proof.
  intros [R1 C1] [R2 C2].
  destruct (bootstrap_labeller_memoless topic anchors n _ _ R1 R2) as [Hl Hls].
  unfold suggest_labels, bind, with_rank_cache, with_cats_cache, ret.
  destruct (bootstrap_labeller W topic anchors n (rank_cache p1)) as [[counts1|e1] s1],
           (bootstrap_labeller W topic anchors n (rank_cache p2)) as [[counts2|e2] s2];
    simpl in Hl, Hls; try discriminate.
  - injection Hl as <-. destruct b; cbn [cats_cache rank_cache].
    + destruct (enrich_from_categories_memoless counts1 default_min_score
                  default_category_boost _ _ C1 C2) as [He Hes].
      destruct (enrich_from_categories W counts1 default_min_score default_category_boost
                                       (cats_cache p1)) as [[o1|x1] t1],
               (enrich_from_categories W counts1 default_min_score default_category_boost
                                       (cats_cache p2)) as [[o2|x2] t2];
        simpl in He, Hes; try discriminate.
      * injection He as <-. split; [reflexivity | split; assumption].
      * injection He as <-. split; [reflexivity | split; assumption].
    + split; [reflexivity | split; assumption].
  - injection Hl as <-. split; [reflexivity | split; assumption].
Qed.
End Memoless.

(** X12: the result of [suggest_labels] does not depend on what is memoized.
    From two states of the process whose stores agree with the collaborator
    it returns the same labels, or raises the same exception, and the state
    it leaves agrees with the collaborator again; so a second call with the
    same arguments gives the result of the first. *)
Theorem suggest_labels_independent_of_memo
        (W : wikipedia) (p1 p2 : process) (topic contextual_anchors : list string)
        (topn : option Z) (bootstrap_size : Z) (boost_with_categories : bool) :
  process_consistent W p1 ->
  process_consistent W p2 ->
  let call := suggest_labels W topic contextual_anchors topn bootstrap_size
                             boost_with_categories in
  fst (call p1) = fst (call p2) /\
  process_consistent W (snd (call p1)) /\
  fst (call (snd (call p1))) = fst (call p1).
Proof.
  intros H1 H2 call. subst call.
  destruct (suggest_labels_memoless W topic contextual_anchors topn bootstrap_size
              boost_with_categories p1 p2 H1 H2) as [Ha Hs].
  repeat split; try assumption; try apply Hs.
  now apply suggest_labels_memoless.
Qed.

Lemma suggest_labels_independent_of_memo_witness :
  let p0 := {| rank_cache := lru_empty; cats_cache := lru_empty |} in
  let p1 := snd (suggest_labels sample ["a"; "b"] ["m"] None 1 true p0) in
  let call := suggest_labels sample ["a"; "b"; "c"] [] (Some 2%Z) 2 true in
  fst (call p1) = fst (call p0) /\
  process_consistent sample (snd (call p1)) /\
  fst (call (snd (call p1))) = fst (call p1).
Proof.
  apply (suggest_labels_independent_of_memo
           sample
           (snd (suggest_labels sample ["a"; "b"] ["m"] None 1 true
                                {| rank_cache := lru_empty; cats_cache := lru_empty |}))
           {| rank_cache := lru_empty; cats_cache := lru_empty |}
           ["a"; "b"; "c"] [] (Some 2%Z) 2 true).
  - apply (proj2 (suggest_labels_memoless
                    sample ["a"; "b"] ["m"] None 1 true
                    {| rank_cache := lru_empty; cats_cache := lru_empty |}
                    {| rank_cache := lru_empty; cats_cache := lru_empty |}
                    (conj (lru_consistent_empty _) (lru_consistent_empty _))
                    (conj (lru_consistent_empty _) (lru_consistent_empty _)))).
  - split; apply lru_consistent_empty.
Defined.

(* ----------------------------------------------------------------- *)
(** ** The scores after the category boost *)

(** [ring] on an equation of scores whose left side is a bare score. *)
Ltac qring :=
  match goal with
  | |- Qeq ?a ?b => apply (Qeq_trans a (0 + a)%Q b); [symmetry; apply Qplus_0_l | ring]
  end.

Lemma for_each_cons {St A B} (body : B -> A -> M St B) (x : A) (xs : list A)
      (acc : B) (s : St) :
  for_each body (x :: xs) acc s
  = match body acc x s with
    | (Return acc1, s1) => for_each body xs acc1 s1
    | (Raise e, s1) => (Raise e, s1)
    end.
Proof. reflexivity. Qed.

Lemma Counter_get_perm (c1 c2 : Counter) (L : string) :
  Permutation c1 c2 -> NoDup (Counter_keys c1) -> Counter_get c1 L = Counter_get c2 L.
Proof.
  intros Hperm Hnd.
  assert (Hnd2 : NoDup (Counter_keys c2)).
  { eapply Permutation_NoDup; [|exact Hnd]. now apply Permutation_map. }
  destruct (in_dec string_dec L (Counter_keys c1)) as [Hin|Hnin].
  - apply in_map_iff in Hin. destruct Hin as ([k v] & Hk & Hin). simpl in Hk. subst k.
    rewrite (Counter_get_In c1 L v), (Counter_get_In c2 L v); trivial.
    now apply (Permutation_in _ Hperm).
  - rewrite !Counter_get_absent; trivial.
    intros Hin. apply Hnin. eapply Permutation_in; [|exact Hin].
    apply Permutation_map. now symmetry.
Qed.

Section BoostedScores.
Variable W : wikipedia.
Variable counts : Counter.
Variable min_score : score.

Lemma cumulate_NoDup (term : string) (s : score) (cats : list string) : forall cum,
  NoDup (Counter_keys cum) -> NoDup (Counter_keys (cumulate counts term s cats cum)).
Proof.
  unfold cumulate. induction cats as [|cat cats IH]; intros cum Hnd; simpl; [assumption|].
  apply IH. destruct (String.eqb cat term); [assumption|].
  destruct (Counter_contains counts cat); simpl; [|assumption].
  now apply Counter_set_NoDup.
Qed.

Lemma cumulate_get (term : string) (s : score) (L : string) (cats : list string) :
  forall cum,
    (Counter_get (cumulate counts term s cats cum) L
     == Counter_get cum L
        + (if String.eqb L term then 0
           else if Counter_contains counts L
                then s * inject_Z (Z.of_nat (count_occ string_dec cats L))
                else 0))%Q.
Proof.
  unfold cumulate. induction cats as [|cat cats IH]; intros cum.
  - simpl. destruct (String.eqb L term), (Counter_contains counts L); qring.
  - simpl fold_left. rewrite IH.
    destruct (string_dec cat L) as [->|Hne].
    + rewrite (count_occ_cons_eq string_dec cats (eq_refl L)).
      destruct (String.eqb L term) eqn:Et; [qring|].
      destruct (Counter_contains counts L) eqn:Ec; cbn [negb]; [|qring].
      rewrite Counter_get_set_same, Nat2Z.inj_succ, <- Z.add_1_r, inject_Z_plus. qring.
    + rewrite (count_occ_cons_neq string_dec cats Hne).
      assert (Hsame : Counter_get
                        (if String.eqb cat term then cum
                         else if negb (Counter_contains counts cat) then cum
                              else Counter_set cum cat (Counter_get cum cat + s)%Q) L
                      = Counter_get cum L).
      { destruct (String.eqb cat term); [reflexivity|].
        destruct (Counter_contains counts cat); simpl; [|reflexivity].
        now apply Counter_get_set_other. }
      rewrite Hsame. reflexivity.
Qed.

Lemma enrich_loop_mass (items : list (string * score)) :
  forall (cum : Counter) (c : lru (list string)) (cum' : Counter) (c' : lru (list string)),
    lru_consistent (get_wiki_cats_body W) c ->
    NoDup (Counter_keys cum) ->
    for_each (fun cum ts =>
                if Qltb (snd ts) min_score then ret cum
                else (cats <- get_wiki_cats W (fst ts) ;;
                      ret (cumulate counts (fst ts) (snd ts) cats cum))%monad)
             items cum c = (Return cum', c') ->
    NoDup (Counter_keys cum') /\
    forall L, (Counter_get cum' L
               == Counter_get cum L + Qsum (map (category_mass W counts min_score L) items))%Q.
Proof.
  induction items as [|[t s] items IH]; intros cum c cum' c' Hc Hnd Hrun.
  - injection Hrun as <- _. split; [assumption|]. intros L. simpl. qring.
  - rewrite for_each_cons in Hrun. cbn [fst snd] in Hrun.
    destruct (Qltb s min_score) eqn:E.
    + unfold ret at 1 in Hrun. destruct (IH _ _ _ _ Hc Hnd Hrun) as [Hnd' Hget].
      split; [assumption|]. intros L. rewrite Hget. unfold Qsum. cbn [map fold_right].
      unfold category_mass at 2. cbn [fst snd]. rewrite E. qring.
    + unfold bind, ret in Hrun.
      pose proof (lru_cache_returns (get_wiki_cats_body W) c t Hc) as Hret.
      pose proof (lru_cache_consistent (get_wiki_cats_body W) c t Hc) as Hc1.
      fold (get_wiki_cats W t) in Hret, Hc1.
      destruct (get_wiki_cats W t c) as [[cats|e] c1]; [|discriminate].
      simpl in Hret, Hc1.
      destruct (IH _ _ _ _ Hc1 (cumulate_NoDup t s cats cum Hnd) Hrun) as [Hnd' Hget].
      split; [assumption|]. intros L. rewrite Hget, cumulate_get.
      unfold Qsum. cbn [map fold_right].
      unfold category_mass at 2, categories_of. cbn [fst snd]. rewrite E, <- Hret.
      cbv beta iota.
      destruct (String.eqb L t), (Counter_contains counts L); qring.
Qed.

Lemma boost_get (category_boost : score) (cum : Counter) (L : string) :
  NoDup (Counter_keys cum) ->
  (Counter_get (boost category_boost cum counts) L
   == Counter_get counts L + category_boost * Counter_get cum L)%Q.
Proof.
  intros Hnd. unfold boost. simpl most_common.
  rewrite <- (Counter_get_perm (sorted_desc cum) cum L (sorted_desc_perm cum)).
  2:{ eapply Permutation_NoDup; [|exact Hnd].
      apply Permutation_map. symmetry. apply sorted_desc_perm. }
  assert (Hnd' : NoDup (Counter_keys (sorted_desc cum))).
  { eapply Permutation_NoDup; [|exact Hnd].
    apply Permutation_map. symmetry. apply sorted_desc_perm. }
  revert Hnd'. generalize (sorted_desc cum) as items. generalize counts as cs.
  intros cs items. revert cs.
  induction items as [|[t v] items IH]; intros cs Hi; simpl.
  - qring.
  - inversion Hi as [|? ? Hnin Hi']; subst. rewrite IH by assumption.
    destruct (String.eqb t L) eqn:E.
    + apply String.eqb_eq in E. subst t.
      rewrite Counter_get_set_same, (Counter_get_absent items L) by assumption. qring.
    + apply String.eqb_neq in E. rewrite Counter_get_set_other by assumption. qring.
Qed.
End BoostedScores.

(** X13: when the category booster returns, the score of every label [C] is
    its score before plus [category_boost] times the sum, over the labels
    [T] other than [C] whose score is at least [min_score], of the score of
    [T] times the number of occurrences of [C] among the categories of [T];
    a [C] that is no key of the score map gets nothing. *)
Theorem enrich_from_categories_boosted_scores
        (W : wikipedia) (c : lru (list string)) (counts : Counter)
        (min_score category_boost : score) (out : Counter) :
  lru_consistent (get_wiki_cats_body W) c ->
  fst (enrich_from_categories W counts min_score category_boost c) = Return out ->
  forall C,
    (Counter_get out C
     == Counter_get counts C
        + category_boost * Qsum (map (category_mass W counts min_score C) counts))%Q.
Proof.
  intros Hc Hrun C. rewrite enrich_from_categories_unfold in Hrun.
  match type of Hrun with
  | context [for_each ?b counts [] c] =>
      destruct (for_each b counts [] c) as [[cum|e] c'] eqn:E; [|discriminate]
  end.
  simpl in Hrun. injection Hrun as <-.
  destruct (enrich_loop_mass W counts min_score counts [] c cum c' Hc (NoDup_nil _) E)
    as [Hnd Hget].
  rewrite boost_get by assumption. rewrite Hget. simpl. qring.
Qed.

Lemma enrich_from_categories_boosted_scores_witness :
  (Counter_get [("X", 1%Q); ("Y", (5 # 2)%Q)] "Y"
   == Counter_get [("X", 1%Q); ("Y", (1 # 2)%Q)] "Y"
      + default_category_boost
        * Qsum (map (category_mass sample [("X", 1%Q); ("Y", (1 # 2)%Q)]
                                   default_min_score "Y")
                    [("X", 1%Q); ("Y", (1 # 2)%Q)]))%Q.
Proof.
  apply (enrich_from_categories_boosted_scores
           sample lru_empty [("X", 1%Q); ("Y", (1 # 2)%Q)]
           default_min_score default_category_boost
           [("X", 1%Q); ("Y", (5 # 2)%Q)]).
  - apply lru_consistent_empty.
  - reflexivity.
Defined.

(* ----------------------------------------------------------------- *)
(** ** The score map of one query *)

(** X14: when the search answers a query, the ranked search returns a score
    map with one entry per distinct title, in the order in which the titles
    first occur in the results; the score of a returned title is positive
    and at most 1, and a title that was not returned reads as 0. *)
Theorem rank_wiki_labels_one_entry_per_title
        (W : wikipedia) (c : lru Counter) (query : string) (results : list string) :
  lru_consistent (rank_wiki_labels_body W) c ->
  search W query = Return results ->
  exists counts,
    fst (rank_wiki_labels W query c) = Return counts /\
    Counter_keys counts = first_seen results /\
    (forall L, In L results ->
               (0 < Counter_get counts L)%Q /\ (Counter_get counts L <= 1)%Q) /\
    (forall L, ~ In L results -> Counter_get counts L = 0%Q).
Proof.
  intros Hc Hs. exists (rank_results results).
  split; [now apply rank_wiki_labels_returns|].
  split; [apply rank_results_keys|]. split.
  - intros L HL. rewrite rank_results_get.
    destruct (last_index L results) as [j|] eqn:E.
    + split; [apply pow2_neg_pos|]. rewrite <- pow2_neg_0. apply pow2_neg_le. lia.
    + apply last_index_None in E. contradiction.
  - intros L HL. rewrite rank_results_get.
    apply last_index_None in HL. now rewrite HL.
Qed.

Lemma rank_wiki_labels_one_entry_per_title_witness :
  exists counts,
    fst (rank_wiki_labels sample "a b" lru_empty) = Return counts /\
    Counter_keys counts = first_seen ["X"; "Y"; "X"] /\
    (forall L, In L ["X"; "Y"; "X"] ->
               (0 < Counter_get counts L)%Q /\ (Counter_get counts L <= 1)%Q) /\
    (forall L, ~ In L ["X"; "Y"; "X"] -> Counter_get counts L = 0%Q).
Proof.
  apply (rank_wiki_labels_one_entry_per_title sample lru_empty "a b" ["X"; "Y"; "X"]).
  - apply lru_consistent_empty.
  - reflexivity.
Defined.
